(** * al::semaphore (common/alsem.cpp): the four platform backends

    The source file defines the same five members of [al::semaphore] four
    times, one per target platform, and the preprocessor keeps exactly one.
    Each variant is embedded in a module of its own ([Win32], [Dispatch],
    [Mach], [Posix]) as a computation in a small monad over a [world]: the
    kernel's table of counting objects, the atomic cell of the Mach variant,
    the thread's [errno], a schedule of what the rest of the system does
    while the calling thread is inside a native call, and a log of the
    native calls and atomic operations the calling thread performs. *)

From stdpp Require Import base option list gmap.
From Stdlib Require Import ZArith Lia.

Open Scope Z_scope.

(** ** Integer types *)

Definition INT_MAX : Z := 2147483647.
Definition UINT_MAX : Z := 4294967295.

(** What the source takes from system headers and that differs between
    targets: the data model, which fixes the width of [long] and
    [intptr_t], and [SEM_VALUE_MAX]. *)
Inductive data_model := ILP32 | LP64.

Record platform := Platform {
  model : data_model;
  SEM_VALUE_MAX : Z
}.

Definition word_bits (p : platform) : Z :=
  match model p with ILP32 => 32 | LP64 => 64 end.

Definition INTPTR_MAX (p : platform) : Z := 2 ^ (word_bits p - 1) - 1.
Definition INTPTR_MIN (p : platform) : Z := - 2 ^ (word_bits p - 1).

(** Conversion to a signed word of [bits] bits (two's complement). *)
Definition to_signed (bits : Z) (x : Z) : Z :=
  (x + 2 ^ (bits - 1)) mod 2 ^ bits - 2 ^ (bits - 1).

Definition to_intptr (p : platform) (x : Z) : Z := to_signed (word_bits p) x.
Definition to_long (p : platform) (x : Z) : Z := to_signed (word_bits p) x.
(** Win32 [LONG] is 32 bits on every Windows target. *)
Definition to_LONG (x : Z) : Z := to_signed 32 x.

(** ** Errors and outcomes *)

(** The two [std::errc] values the file throws. *)
Inductive errc := value_too_large | resource_unavailable_try_again.

(** What a call does from the caller's point of view. *)
Inductive outcome (A : Type) :=
| Done (a : A)          (* the call returned [a] *)
| Raise (e : errc)      (* a std::system_error carrying [e] was thrown *)
| Suspended             (* the thread is parked in a native wait and the
                           schedule holds nothing that resumes it *)
| OutOfFuel.            (* a loop was cut short by the model *)
Arguments Done {A} a.
Arguments Raise {A} e.
Arguments Suspended {A}.
Arguments OutOfFuel {A}.

(** ** The world *)

(** A nullable native handle: [None] is [nullptr] / [MACH_PORT_NULL]. *)
Abbreviation HANDLE := (option positive).

(** A kernel counting object: its count and the largest count it accepts
    ([None]: the primitive reports no overflow). *)
Record kobj := KObj { kcount : Z; kmax : option Z }.

(** What happens to a thread parked in a native wait. *)
Inductive kevent :=
| KPost        (* another thread releases the object; this thread gets the token *)
| KInterrupt.  (* a signal is delivered to this thread *)

(** What happens to the atomic cell between this thread's last read of it
    and its compare-exchange. *)
Inductive aevent :=
| AStore (v : Z)   (* another thread's update left [v] in the cell *)
| ASpurious.       (* the weak compare-exchange fails spuriously *)

(** Native calls and atomic operations, as logged for the calling thread. *)
Inductive event :=
| ev_CreateSemaphore (lInitialCount lMaximumCount : Z)
| ev_CloseHandle (h : HANDLE)
| ev_ReleaseSemaphore (h : HANDLE) (lReleaseCount : Z)
| ev_WaitForSingleObject (h : HANDLE) (dwMilliseconds : Z)
| ev_dispatch_semaphore_create (value : Z)
| ev_dispatch_release (h : HANDLE)
| ev_dispatch_semaphore_signal (h : HANDLE)
| ev_dispatch_semaphore_wait (h : HANDLE) (timeout : Z)
| ev_semaphore_create (policy value : Z)
| ev_semaphore_destroy (h : HANDLE)
| ev_semaphore_signal (h : HANDLE)
| ev_semaphore_wait (h : HANDLE)
| ev_sem_init (pshared value : Z)
| ev_sem_destroy (h : HANDLE)
| ev_sem_post (h : HANDLE)
| ev_sem_wait (h : HANDLE)
| ev_sem_trywait (h : HANDLE)
| ev_store (v : Z)
| ev_load (v : Z)
| ev_fetch_add (old d : Z)
| ev_fetch_sub (old d : Z)
| ev_compare_exchange_weak (expected desired : Z) (ok : bool).

Record world := World {
  cfg : platform;
  kobjs : gmap positive kobj;    (* live kernel objects *)
  kquota : nat;                  (* how many objects the OS agrees to hold *)
  atom : Z;                      (* mSem.value of the Mach variant *)
  errno : Z;
  ksched : list kevent;
  asched : list aevent;
  log : list event
}.

Definition set_kobjs (f : gmap positive kobj -> gmap positive kobj) (w : world) : world :=
  {| cfg := cfg w; kobjs := f (kobjs w); kquota := kquota w; atom := atom w;
     errno := errno w; ksched := ksched w; asched := asched w; log := log w |}.
Definition set_atom (v : Z) (w : world) : world :=
  {| cfg := cfg w; kobjs := kobjs w; kquota := kquota w; atom := v;
     errno := errno w; ksched := ksched w; asched := asched w; log := log w |}.
Definition set_errno (v : Z) (w : world) : world :=
  {| cfg := cfg w; kobjs := kobjs w; kquota := kquota w; atom := atom w;
     errno := v; ksched := ksched w; asched := asched w; log := log w |}.
Definition set_ksched (s : list kevent) (w : world) : world :=
  {| cfg := cfg w; kobjs := kobjs w; kquota := kquota w; atom := atom w;
     errno := errno w; ksched := s; asched := asched w; log := log w |}.
Definition set_asched (s : list aevent) (w : world) : world :=
  {| cfg := cfg w; kobjs := kobjs w; kquota := kquota w; atom := atom w;
     errno := errno w; ksched := ksched w; asched := s; log := log w |}.
Definition logged (e : event) (w : world) : world :=
  {| cfg := cfg w; kobjs := kobjs w; kquota := kquota w; atom := atom w;
     errno := errno w; ksched := ksched w; asched := asched w; log := log w ++ [e] |}.

(** ** The monad of calls *)

Definition M (A : Type) : Type := world -> outcome A * world.

Definition ret {A} (a : A) : M A := fun w => (Done a, w).
Definition throw {A} (e : errc) : M A := fun w => (Raise e, w).
Definition bind {A B} (m : M A) (k : A -> M B) : M B :=
  fun w =>
    match m w with
    | (Done a, w') => k a w'
    | (Raise e, w') => (Raise e, w')
    | (Suspended, w') => (Suspended, w')
    | (OutOfFuel, w') => (OutOfFuel, w')
    end.

Global Instance M_ret : MRet M := @ret.
Global Instance M_bind : MBind M := fun A B k m => bind m k.

Definition emit (e : event) : M unit := fun w => (Done tt, logged e w).
Definition get_errno : M Z := fun w => (Done (errno w), w).
Definition put_errno (v : Z) : M unit := fun w => (Done tt, set_errno v w).
Definition get_cfg : M platform := fun w => (Done (cfg w), w).

(** ** The kernel's counting objects

    One model serves the four native primitives; they differ in their
    maximum count, in whether a parked thread can be interrupted, and in
    how they report results. *)

Definition klookup (h : HANDLE) (w : world) : option (positive * kobj) :=
  match h with
  | Some p => match kobjs w !! p with Some o => Some (p, o) | None => None end
  | None => None
  end.

Definition k_live (h : HANDLE) : M bool := fun w =>
  (Done (bool_decide (is_Some (klookup h w))), w).

Definition k_alloc (initial : Z) (maximum : option Z) : M HANDLE := fun w =>
  if bool_decide (size (kobjs w) < kquota w)%nat then
    let p := fresh (dom (kobjs w)) in
    (Done (Some p), set_kobjs (insert p (KObj initial maximum)) w)
  else (Done None, w).

Definition k_free (h : HANDLE) : M unit := fun w =>
  match h with
  | Some p => (Done tt, set_kobjs (delete p) w)
  | None => (Done tt, w)
  end.

Definition within (c : Z) (maximum : option Z) : bool :=
  match maximum with Some m => c <=? m | None => true end.

(** Add [n] tokens; [false] when the handle is dead, [n] is not positive
    or the count would pass the object's maximum. *)
Definition k_release (h : HANDLE) (n : Z) : M bool := fun w =>
  match klookup h w with
  | Some (p, o) =>
      if (0 <? n) && within (kcount o + n) (kmax o)
      then (Done true, set_kobjs (insert p (KObj (kcount o + n) (kmax o))) w)
      else (Done false, w)
  | None => (Done false, w)
  end.

Inductive acquired := Acquired | TimedOut | Interrupted | BadObject.

(** A parked thread consumes the schedule until something resumes it. *)
Fixpoint await (interruptible : bool) (s : list kevent) : option acquired * list kevent :=
  match s with
  | [] => (None, [])
  | KPost :: rest => (Some Acquired, rest)
  | KInterrupt :: rest =>
      if interruptible then (Some Interrupted, rest) else await interruptible rest
  end.

(** Take one token. With a positive count the call returns at once; with a
    zero count it times out at once when [blocking] is off and parks the
    thread when it is on. *)
Definition k_acquire (h : HANDLE) (blocking interruptible : bool) : M acquired := fun w =>
  match klookup h w with
  | None => (Done BadObject, w)
  | Some (p, o) =>
      if 0 <? kcount o
      then (Done Acquired, set_kobjs (insert p (KObj (kcount o - 1) (kmax o))) w)
      else if blocking then
        match await interruptible (ksched w) with
        | (Some r, rest) => (Done r, set_ksched rest w)
        | (None, rest) => (Suspended, set_ksched rest w)
        end
      else (Done TimedOut, w)
  end.

Definition out_of_fuel {A} : M A := fun w => (OutOfFuel, w).

(** Run a loop with a bound on its rounds read off the world. *)
Definition fueled {A} (bound : world -> nat) (body : nat -> M A) : M A :=
  fun w => body (bound w) w.

(** ** Native interfaces *)

(** *** Win32 *)

Definition INFINITE : Z := 4294967295.
Definition WAIT_OBJECT_0 : Z := 0.
Definition WAIT_TIMEOUT : Z := 258.
Definition WAIT_FAILED : Z := 4294967295.

Definition CreateSemaphore (lInitialCount lMaximumCount : Z) : M HANDLE :=
  emit (ev_CreateSemaphore lInitialCount lMaximumCount);;
  if (lInitialCount <? 0) || (lMaximumCount <=? 0) || (lMaximumCount <? lInitialCount)
  then mret None
  else k_alloc lInitialCount (Some lMaximumCount).

Definition CloseHandle (h : HANDLE) : M unit :=
  emit (ev_CloseHandle h);; k_free h.

Definition ReleaseSemaphore (h : HANDLE) (lReleaseCount : Z) : M bool :=
  emit (ev_ReleaseSemaphore h lReleaseCount);; k_release h lReleaseCount.

Definition WaitForSingleObject (h : HANDLE) (dwMilliseconds : Z) : M Z :=
  emit (ev_WaitForSingleObject h dwMilliseconds);;
  r ← k_acquire h (dwMilliseconds =? INFINITE) false;
  mret (match r : acquired with
        | Acquired => WAIT_OBJECT_0
        | TimedOut | Interrupted => WAIT_TIMEOUT
        | BadObject => WAIT_FAILED
        end).

(** *** libdispatch *)

Definition DISPATCH_TIME_NOW : Z := 0.
Definition DISPATCH_TIME_FOREVER : Z := 18446744073709551615.

Definition dispatch_semaphore_create (value : Z) : M HANDLE :=
  emit (ev_dispatch_semaphore_create value);;
  if value <? 0 then mret None else k_alloc value None.

Definition dispatch_release (h : HANDLE) : M unit :=
  emit (ev_dispatch_release h);; k_free h.

Definition dispatch_semaphore_signal (h : HANDLE) : M Z :=
  emit (ev_dispatch_semaphore_signal h);;
  k_release h 1;; mret 0.

Definition dispatch_semaphore_wait (h : HANDLE) (timeout : Z) : M Z :=
  emit (ev_dispatch_semaphore_wait h timeout);;
  r ← k_acquire h (timeout =? DISPATCH_TIME_FOREVER) false;
  mret (match r : acquired with Acquired => 0 | _ => 49 end).

(** *** Mach *)

Definition KERN_SUCCESS : Z := 0.
Definition KERN_INVALID_ARGUMENT : Z := 4.
Definition KERN_RESOURCE_SHORTAGE : Z := 6.
Definition KERN_ABORTED : Z := 14.
Definition SYNC_POLICY_FIFO : Z := 0.

(** [semaphore_create(task, &sem, policy, value)]: the return code and what
    it leaves in [sem] (untouched, so [MACH_PORT_NULL], on failure). *)
Definition semaphore_create (policy value : Z) : M (Z * HANDLE) :=
  emit (ev_semaphore_create policy value);;
  if value <? 0 then mret (KERN_INVALID_ARGUMENT, None)
  else
    h ← k_alloc value None;
    mret (match h : HANDLE with
          | Some p => (KERN_SUCCESS, Some p)
          | None => (KERN_RESOURCE_SHORTAGE, None)
          end).

Definition semaphore_destroy (h : HANDLE) : M Z :=
  emit (ev_semaphore_destroy h);; k_free h;; mret KERN_SUCCESS.

Definition semaphore_signal (h : HANDLE) : M Z :=
  emit (ev_semaphore_signal h);;
  ok ← k_release h 1;
  mret (if ok : bool then KERN_SUCCESS else KERN_INVALID_ARGUMENT).

Definition semaphore_wait (h : HANDLE) : M Z :=
  emit (ev_semaphore_wait h);;
  r ← k_acquire h true true;
  mret (match r : acquired with
        | Acquired => KERN_SUCCESS
        | Interrupted => KERN_ABORTED
        | TimedOut | BadObject => KERN_INVALID_ARGUMENT
        end).

(** *** The atomic cell [mSem.value]

    Modelled from the spec: the member is declared in alsem.h, which is
    not among the sources at hand; the spec calls it an atomic signed
    integer and the source reads it into an [intptr_t], so it is a
    [std::atomic<intptr_t>] here, and its arithmetic wraps at the width
    of [intptr_t]. *)

Definition atomic_store (v : Z) : M unit := fun w =>
  (Done tt, logged (ev_store v) (set_atom v w)).

Definition atomic_load : M Z := fun w =>
  (Done (atom w), logged (ev_load (atom w)) w).

Definition fetch_add (d : Z) : M Z := fun w =>
  (Done (atom w),
   logged (ev_fetch_add (atom w) d) (set_atom (to_intptr (cfg w) (atom w + d)) w)).

Definition fetch_sub (d : Z) : M Z := fun w =>
  (Done (atom w),
   logged (ev_fetch_sub (atom w) d) (set_atom (to_intptr (cfg w) (atom w - d)) w)).

(** The rest of the system moves first (one step of [asched]), then the
    cell is compared with [expected]. The result is the success flag and the
    value left in the caller's [expected] variable. *)
Definition interfere (w : world) : bool * world :=
  match asched w with
  | AStore v :: rest => (false, set_asched rest (set_atom v w))
  | ASpurious :: rest => (true, set_asched rest w)
  | [] => (false, w)
  end.

Definition compare_exchange_weak (expected desired : Z) : M (bool * Z) := fun w =>
  let '(spurious, w1) := interfere w in
  if negb spurious && (atom w1 =? expected)
  then (Done (true, expected),
        logged (ev_compare_exchange_weak expected desired true) (set_atom desired w1))
  else (Done (false, atom w1),
        logged (ev_compare_exchange_weak expected desired false) w1).

(** *** POSIX *)

Definition EINTR : Z := 4.
Definition EAGAIN : Z := 11.
Definition EINVAL : Z := 22.
Definition ENOSPC : Z := 28.
Definition EOVERFLOW : Z := 75.

(** [sem_init(&sem, pshared, value)]: the return code and the object it
    initialised. *)
Definition sem_init (pshared value : Z) : M (Z * HANDLE) :=
  emit (ev_sem_init pshared value);;
  p ← get_cfg;
  if SEM_VALUE_MAX p <? value then put_errno EINVAL;; mret (-1, None)
  else
    h ← k_alloc value (Some (SEM_VALUE_MAX p));
    match h : HANDLE with
    | Some o => mret (0, Some o)
    | None => put_errno ENOSPC;; mret (-1, None)
    end.

Definition sem_destroy (h : HANDLE) : M Z :=
  emit (ev_sem_destroy h);; k_free h;; mret 0.

Definition sem_post (h : HANDLE) : M Z :=
  emit (ev_sem_post h);;
  live ← k_live h;
  if negb live then put_errno EINVAL;; mret (-1)
  else
    ok ← k_release h 1;
    if ok : bool then mret 0 else put_errno EOVERFLOW;; mret (-1).

Definition sem_wait (h : HANDLE) : M Z :=
  emit (ev_sem_wait h);;
  r ← k_acquire h true true;
  match r : acquired with
  | Acquired => mret 0
  | Interrupted => put_errno EINTR;; mret (-1)
  | TimedOut | BadObject => put_errno EINVAL;; mret (-1)
  end.

Definition sem_trywait (h : HANDLE) : M Z :=
  emit (ev_sem_trywait h);;
  r ← k_acquire h false true;
  match r : acquired with
  | Acquired => mret 0
  | TimedOut | Interrupted => put_errno EAGAIN;; mret (-1)
  | BadObject => put_errno EINVAL;; mret (-1)
  end.

(** ** The four variants of al::semaphore

    In each module [semaphore] is the constructor (it returns the member
    [mSem]), [destroy] is the destructor, and [post], [wait], [try_wait]
    take [mSem]. [initial] is the [unsigned int] argument, a [Z] in
    [0 .. UINT_MAX]. *)

Module Win32.

Definition semaphore (initial : Z) : M HANDLE :=
  if initial >? INT_MAX then throw value_too_large
  else
    mSem ← CreateSemaphore (to_LONG initial) INT_MAX;
    match mSem : HANDLE with
    | None => throw resource_unavailable_try_again
    | Some _ => mret mSem
    end.

Definition destroy (mSem : HANDLE) : M unit := CloseHandle mSem.

Definition post (mSem : HANDLE) : M unit :=
  ok ← ReleaseSemaphore mSem 1;
  if negb ok then throw value_too_large else mret tt.

Definition wait (mSem : HANDLE) : M unit :=
  WaitForSingleObject mSem INFINITE;; mret tt.

Definition try_wait (mSem : HANDLE) : M bool :=
  r ← WaitForSingleObject mSem 0; mret (r =? WAIT_OBJECT_0).

End Win32.

Module Dispatch.

Definition semaphore (initial : Z) : M HANDLE :=
  p ← get_cfg;
  mSem ← dispatch_semaphore_create (to_long p initial);
  match mSem : HANDLE with
  | None => throw resource_unavailable_try_again
  | Some _ => mret mSem
  end.

Definition destroy (mSem : HANDLE) : M unit := dispatch_release mSem.

Definition post (mSem : HANDLE) : M unit :=
  dispatch_semaphore_signal mSem;; mret tt.

Definition wait (mSem : HANDLE) : M unit :=
  dispatch_semaphore_wait mSem DISPATCH_TIME_FOREVER;; mret tt.

Definition try_wait (mSem : HANDLE) : M bool :=
  r ← dispatch_semaphore_wait mSem DISPATCH_TIME_NOW; mret (r =? 0).

End Dispatch.

(** [mSem] has two members here: the port [mSem.sem], which the functions
    below pass around, and the atomic [mSem.value], which is the cell
    [atom] of the world because other threads update it too. The
    constructor's first statement, [mSem.sem = MACH_PORT_NULL], is the
    [None] that [semaphore_create] hands back when it fails. *)
Module Mach.

Definition semaphore (initial : Z) : M HANDLE :=
  p ← get_cfg;
  atomic_store (to_intptr p initial);;
  r ← semaphore_create SYNC_POLICY_FIFO 0;
  if negb (fst r =? KERN_SUCCESS) then throw resource_unavailable_try_again
  else mret (snd r).

Definition destroy (sem : HANDLE) : M unit :=
  semaphore_destroy sem;; mret tt.

Definition post (sem : HANDLE) : M unit :=
  val ← fetch_add 1;
  if val <=? 0 then semaphore_signal sem;; mret tt
  else mret tt.

Definition wait (sem : HANDLE) : M unit :=
  val ← fetch_sub 1;
  if val <? 0 then semaphore_wait sem;; mret tt
  else mret tt.

(** The loop of [try_wait]; [orig] is below zero whenever the
    compare-exchange runs, so [orig + 1] does not overflow. *)
Fixpoint try_wait_loop (fuel : nat) (sem : HANDLE) (orig : Z) : M bool :=
  if orig <? 0 then
    match fuel with
    | O => out_of_fuel
    | S fuel' =>
        r ← compare_exchange_weak orig (orig + 1);
        if fst r : bool then mret false
        else try_wait_loop fuel' sem (snd r)
    end
  else
    r ← semaphore_wait sem; mret (r =? KERN_SUCCESS).

(** Every failed compare-exchange uses up one step of [asched], so one
    more round than [asched] is long always suffices
    ([try_wait_loop_fuel] below). *)
Definition try_wait (sem : HANDLE) : M bool :=
  orig ← atomic_load;
  fueled (fun w => S (length (asched w))) (fun fuel => try_wait_loop fuel sem orig).

End Mach.

Module Posix.

Definition semaphore (initial : Z) : M HANDLE :=
  r ← sem_init 0 initial;
  if negb (fst r =? 0) then throw resource_unavailable_try_again
  else mret (snd r).

Definition destroy (mSem : HANDLE) : M unit :=
  sem_destroy mSem;; mret tt.

Definition post (mSem : HANDLE) : M unit :=
  r ← sem_post mSem;
  if negb (r =? 0) then throw value_too_large else mret tt.

Fixpoint wait_loop (fuel : nat) (mSem : HANDLE) : M unit :=
  match fuel with
  | O => out_of_fuel
  | S fuel' =>
      r ← sem_wait mSem;
      e ← get_errno;
      if (r =? -1) && (e =? EINTR) then wait_loop fuel' mSem
      else mret tt
  end.

(** Every EINTR uses up one step of [ksched] ([wait_loop_fuel] below). *)
Definition wait (mSem : HANDLE) : M unit :=
  fueled (fun w => S (length (ksched w))) (fun fuel => wait_loop fuel mSem).

Definition try_wait (mSem : HANDLE) : M bool :=
  r ← sem_trywait mSem; mret (r =? 0).

End Posix.

(** The build-time choice of variant. *)
Inductive backend := WindowsBackend | DispatchBackend | MachBackend | PosixBackend.

Definition construct (b : backend) : Z -> M HANDLE :=
  match b with
  | WindowsBackend => Win32.semaphore
  | DispatchBackend => Dispatch.semaphore
  | MachBackend => Mach.semaphore
  | PosixBackend => Posix.semaphore
  end.

Definition post (b : backend) : HANDLE -> M unit :=
  match b with
  | WindowsBackend => Win32.post
  | DispatchBackend => Dispatch.post
  | MachBackend => Mach.post
  | PosixBackend => Posix.post
  end.

Definition wait (b : backend) : HANDLE -> M unit :=
  match b with
  | WindowsBackend => Win32.wait
  | DispatchBackend => Dispatch.wait
  | MachBackend => Mach.wait
  | PosixBackend => Posix.wait
  end.

Definition try_wait (b : backend) : HANDLE -> M bool :=
  match b with
  | WindowsBackend => Win32.try_wait
  | DispatchBackend => Dispatch.try_wait
  | MachBackend => Mach.try_wait
  | PosixBackend => Posix.try_wait
  end.

(** A quiet machine: no kernel objects yet, room for [quota] of them, and
    no other thread or signal. *)
Definition boot (p : platform) (quota : nat) : world :=
  {| cfg := p; kobjs := ∅; kquota := quota; atom := 0; errno := 0;
     ksched := []; asched := []; log := [] |}.

Definition lp64 : platform := {| model := LP64; SEM_VALUE_MAX := 2147483647 |}.
Definition ilp32 : platform := {| model := ILP32; SEM_VALUE_MAX := 2147483647 |}.


(** ** Reading the log *)

(** Calls into the kernel or a system library, as opposed to operations on
    the atomic cell. *)
Definition is_native (e : event) : bool :=
  match e with
  | ev_store _ | ev_load _ | ev_fetch_add _ _ | ev_fetch_sub _ _
  | ev_compare_exchange_weak _ _ _ => false
  | _ => true
  end.

(** Native waits without a time limit. *)
Definition is_unbounded_wait (e : event) : bool :=
  match e with
  | ev_WaitForSingleObject _ ms => ms =? INFINITE
  | ev_dispatch_semaphore_wait _ t => t =? DISPATCH_TIME_FOREVER
  | ev_semaphore_wait _ | ev_sem_wait _ => true
  | _ => false
  end.

(** Operations of the calling thread that change the atomic cell. *)
Definition is_write (e : event) : bool :=
  match e with
  | ev_store _ | ev_fetch_add _ _ | ev_fetch_sub _ _ => true
  | ev_compare_exchange_weak _ _ ok => ok
  | _ => false
  end.

(** What the calling thread logged between [w] and [w']. *)
Definition since (w w' : world) : list event := drop (length (log w)) (log w').


(** Whether the kernel would accept one more token on [h]. *)
Definition can_release (h : HANDLE) (w : world) : bool :=
  match klookup h w with
  | Some (_, o) => within (kcount o + 1) (kmax o)
  | None => false
  end.

(** Posts still to come in a schedule. *)
Definition posts (s : list kevent) : Z :=
  Z.of_nat (length (List.filter (fun e => match e with KPost => true | _ => false end) s)).

(** Tokens within reach of a waiter on [p]: the count of the object plus
    the posts the schedule still holds. *)
Definition tokens (p : positive) (w : world) : Z :=
  match kobjs w !! p with
  | Some o => kcount o + posts (ksched w)
  | None => 0
  end.

(** [n] calls of [try_wait] in a row, with their results in order. *)
Fixpoint probe (b : backend) (mSem : HANDLE) (n : nat) : M (list bool) :=
  match n with
  | O => mret []
  | S n' =>
      r ← try_wait b mSem;
      rs ← probe b mSem n';
      mret (r :: rs)
  end.

(** The largest initial count the native constructor of a variant takes. *)
Definition native_limit (b : backend) (p : platform) : Z :=
  match b with
  | WindowsBackend => INT_MAX
  | DispatchBackend | MachBackend => INTPTR_MAX p
  | PosixBackend => SEM_VALUE_MAX p
  end.

(** The destructor of the variant chosen at build time. *)
Definition destroy (b : backend) : HANDLE -> M unit :=
  match b with
  | WindowsBackend => Win32.destroy
  | DispatchBackend => Dispatch.destroy
  | MachBackend => Mach.destroy
  | PosixBackend => Posix.destroy
  end.

(** The maximum the native constructor of a variant gives its object. *)
Definition native_max (b : backend) (p : platform) : option Z :=
  match b with
  | WindowsBackend => Some INT_MAX
  | DispatchBackend | MachBackend => None
  | PosixBackend => Some (SEM_VALUE_MAX p)
  end.

(** The operations on a constructed semaphore. *)
Inductive operation := op_post | op_wait | op_try_wait.

Definition run (b : backend) (op : operation) (mSem : HANDLE) : M unit :=
  match op with
  | op_post => post b mSem
  | op_wait => wait b mSem
  | op_try_wait => try_wait b mSem;; mret tt
  end.

(** [w'] has the kernel objects of [w], each with its maximum. *)
Definition steady (w w' : world) : Prop :=
  forall p, kmax <$> kobjs w' !! p = kmax <$> kobjs w !! p.

(** A call that keeps the world steady from every start. *)
Definition keeps {A} (m : M A) : Prop := forall w, steady w (snd (m w)).

(** * Properties *)

Lemma to_signed_id (p : platform) (x : Z) :
  INTPTR_MIN p <= x <= INTPTR_MAX p -> to_intptr p x = x.
Proof.
  unfold INTPTR_MIN, INTPTR_MAX, to_intptr, to_signed, word_bits.
  destruct (model p); simpl; intros H.
  - rewrite Z.mod_small; lia.
  - rewrite Z.mod_small; lia.
Qed.

Lemma since_app (w w' : world) (evs : list event) :
  log w' = log w ++ evs -> since w w' = evs.
Proof. unfold since. intros ->. apply drop_app_length. Qed.

Lemma klookup_logged (h : HANDLE) (e : event) (w : world) :
  klookup h (logged e w) = klookup h w.
Proof. reflexivity. Qed.

Ltac unfold_calls :=
  unfold mbind, M_bind, mret, M_ret, bind, ret, throw, emit, get_errno,
    put_errno, get_cfg, fueled, out_of_fuel in *.

(** ** The Mach variant *)

Lemma mach_post_run (sem : HANDLE) (w : world) :
  fst (Mach.post sem w) = Done tt
  /\ atom (snd (Mach.post sem w)) = to_intptr (cfg w) (atom w + 1)
  /\ log (snd (Mach.post sem w)) =
       log w ++ ev_fetch_add (atom w) 1 ::
                (if atom w <=? 0 then [ev_semaphore_signal sem] else []).
Proof.
  unfold Mach.post, fetch_add, semaphore_signal, k_release.
  unfold_calls. simpl.
  destruct (atom w <=? 0); simpl; [|auto].
  destruct (klookup sem _) as [[p o]|]; simpl.
  - destruct (within _ _); simpl; rewrite <- app_assoc; auto.
  - rewrite <- app_assoc; auto.
Qed.

Lemma mach_wait_run (sem : HANDLE) (w : world) :
  atom (snd (Mach.wait sem w)) = to_intptr (cfg w) (atom w - 1)
  /\ log (snd (Mach.wait sem w)) =
       log w ++ ev_fetch_sub (atom w) 1 ::
                (if atom w <? 0 then [ev_semaphore_wait sem] else [])
  /\ (0 <= atom w -> fst (Mach.wait sem w) = Done tt).
Proof.
  unfold Mach.wait, fetch_sub, semaphore_wait, k_acquire.
  unfold_calls. simpl.
  destruct (atom w <? 0) eqn:E; simpl; [|auto].
  assert (~ 0 <= atom w) by lia.
  destruct (klookup sem _) as [[p o]|]; simpl.
  - destruct (0 <? kcount o); simpl.
    + rewrite <- app_assoc; tauto.
    + destruct (await true (ksched w)) as [[r|] rest]; simpl;
        rewrite <- app_assoc; tauto.
  - rewrite <- app_assoc; tauto.
Qed.

Lemma mach_construct_run (initial : Z) (w : world) :
  let r := Mach.semaphore initial w in
  log (snd r) =
    log w ++ [ev_store (to_intptr (cfg w) initial);
              ev_semaphore_create SYNC_POLICY_FIFO 0]
  /\ atom (snd r) = to_intptr (cfg w) initial
  /\ ((size (kobjs w) < kquota w)%nat ->
      fst r = Done (Some (fresh (dom (kobjs w))))
      /\ kobjs (snd r) = <[fresh (dom (kobjs w)) := KObj 0 None]> (kobjs w))
  /\ (~ (size (kobjs w) < kquota w)%nat ->
      fst r = Raise resource_unavailable_try_again
      /\ kobjs (snd r) = kobjs w).
Proof.
  unfold Mach.semaphore, atomic_store, semaphore_create, k_alloc.
  unfold_calls. simpl.
  destruct (bool_decide _) eqn:E; simpl.
  - apply bool_decide_eq_true in E.
    rewrite <- app_assoc. simpl. tauto.
  - apply bool_decide_eq_false in E.
    rewrite <- app_assoc. simpl. tauto.
Qed.

Ltac pick_world :=
  lazymatch goal with
  | |- ex (fun w' => (_, ?W) = _ /\ _) => exists W
  end.

(** One round of the compare-exchange: what it logs, and that a failure
    leaves the caller holding the current value of the cell. *)
Lemma cas_run (expected desired : Z) (w : world) :
  exists (ok : bool) (w' : world),
    compare_exchange_weak expected desired w =
      (Done (ok, if ok then expected else atom w'), w')
    /\ log w' = log w ++ [ev_compare_exchange_weak expected desired ok]
    /\ (ok = true -> atom w' = desired)
    /\ (ok = false -> (length (asched w') < length (asched w))%nat
                      \/ atom w <> expected)
    /\ (length (asched w') <= length (asched w))%nat.
Proof.
  unfold compare_exchange_weak, interfere.
  destruct (asched w) as [|[v|] rest] eqn:E; simpl.
  - destruct (atom w =? expected) eqn:C;
      [exists true | exists false]; pick_world; (split; [reflexivity|]);
      simpl; rewrite ?E; repeat split; auto; try discriminate.
    right. lia.
  - destruct (v =? expected) eqn:C;
      [exists true | exists false]; pick_world; (split; [reflexivity|]);
      simpl; repeat split; auto; try discriminate; lia.
  - exists false; pick_world; (split; [reflexivity|]); simpl.
    repeat split; auto; try discriminate; lia.
Qed.

(** The loop never runs out of rounds when it is given one more than the
    schedule is long. *)
Lemma try_wait_loop_fuel (fuel : nat) (sem : HANDLE) (orig : Z) (w : world) :
  orig = atom w -> (length (asched w) < fuel)%nat ->
  fst (Mach.try_wait_loop fuel sem orig w) <> OutOfFuel.
Proof.
  revert orig w. induction fuel as [|fuel IH]; intros orig w Ho Hf; [lia|].
  simpl. destruct (orig <? 0) eqn:Neg.
  - destruct (cas_run orig (orig + 1) w) as (ok & w' & Hc & _ & _ & Hfail & Hle).
    unfold_calls. rewrite Hc. destruct ok; simpl; [discriminate|].
    apply IH; [reflexivity|].
    destruct (Hfail eq_refl) as [Hlt|Hne]; [lia|congruence].
  - unfold semaphore_wait, k_acquire. unfold_calls. simpl.
    destruct (klookup sem _) as [[p o]|]; simpl; [|discriminate].
    destruct (0 <? kcount o); simpl; [discriminate|].
    destruct (await true (ksched w)) as [[r|] rest]; simpl; discriminate.
Qed.

(** What the loop logs, and what it writes to the cell. *)
Lemma try_wait_loop_run (fuel : nat) (sem : HANDLE) (orig : Z) (w : world) :
  let r := Mach.try_wait_loop fuel sem orig w in
  exists evs, log (snd r) = log w ++ evs
    /\ (0 <= orig -> evs = [ev_semaphore_wait sem] /\ atom (snd r) = atom w)
    /\ (List.filter is_write evs = []
        \/ exists o, o < 0
             /\ List.filter is_write evs = [ev_compare_exchange_weak o (o + 1) true]
             /\ last evs = Some (ev_compare_exchange_weak o (o + 1) true)
             /\ fst r = Done false
             /\ atom (snd r) = o + 1).
Proof.
  revert orig w. induction fuel as [|fuel IH]; intros orig w; simpl.
  - destruct (orig <? 0) eqn:Neg.
    + exists (@nil event). simpl. rewrite app_nil_r. split; [auto|]. split; [lia|auto].
    + exists [ev_semaphore_wait sem].
      unfold semaphore_wait, k_acquire. unfold_calls. simpl.
      destruct (klookup sem _) as [[p o]|]; simpl; [|auto].
      destruct (0 <? kcount o); simpl; [auto|].
      destruct (await true (ksched w)) as [[r|] rest]; simpl; auto.
  - destruct (orig <? 0) eqn:Neg.
    + destruct (cas_run orig (orig + 1) w) as (ok & w' & Hc & Hlog & Hok & _).
      unfold_calls. rewrite Hc. destruct ok; simpl.
      * exists [ev_compare_exchange_weak orig (orig + 1) true].
        split; [auto|]. split; [lia|]. right. exists orig.
        repeat split; auto. lia.
      * destruct (IH (atom w') w') as (evs & Hl & _ & Hw).
        exists (ev_compare_exchange_weak orig (orig + 1) false :: evs).
        split; [rewrite Hl, Hlog, <- app_assoc; reflexivity|].
        split; [lia|]. simpl.
        destruct Hw as [Hw|(o & Ho & Hw & Hlast & Hr & Ha)]; [left; exact Hw|].
        right. exists o. repeat split; auto.
        destruct evs; [discriminate|]. exact Hlast.
    + exists [ev_semaphore_wait sem].
      unfold semaphore_wait, k_acquire. unfold_calls. simpl.
      destruct (klookup sem _) as [[p o]|]; simpl; [|auto].
      destruct (0 <? kcount o); simpl; [auto|].
      destruct (await true (ksched w)) as [[r|] rest]; simpl; auto.
Qed.

(** ** Claims about the Mach variant *)

(** C1, at the input where the code departs from it: [wait] on a semaphore
    built with no token. The counter goes from 0 to -1, which is negative
    after the decrement, yet the call returns at once: its only operation
    is the [fetch_sub], and [semaphore_wait] is never issued. *)
Theorem mach_wait_on_zero_returns_at_once :
  let r := (sem ← Mach.semaphore 0; Mach.wait sem) (boot lp64 8) in
  fst r = Done tt
  /\ log (snd r) = [ev_store 0; ev_semaphore_create SYNC_POLICY_FIFO 0;
                    ev_fetch_sub 0 1]
  /\ atom (snd r) = -1
  /\ List.filter is_unbounded_wait (log (snd r)) = [].
Proof. vm_compute. repeat split. Qed.

(** C3: [post] of the Mach variant returns normally, adds one to the atomic
    counter (in [intptr_t] arithmetic, so plainly [v + 1] unless [v] is
    [INTPTR_MAX]), and its native calls are a single [semaphore_signal]
    exactly when the value [v] before the increment was at most zero; with
    [v] positive it makes no native call. *)
Theorem mach_post_signals_iff_nonpositive (sem : HANDLE) (w : world) :
  let v := atom w in
  let r := Mach.post sem w in
  fst r = Done tt
  /\ atom (snd r) = to_intptr (cfg w) (v + 1)
  /\ (INTPTR_MIN (cfg w) <= v < INTPTR_MAX (cfg w) -> atom (snd r) = v + 1)
  /\ since w (snd r) =
       ev_fetch_add v 1 :: (if v <=? 0 then [ev_semaphore_signal sem] else [])
  /\ (List.filter is_native (since w (snd r)) = [ev_semaphore_signal sem]
        <-> v <= 0)
  /\ (0 < v -> List.filter is_native (since w (snd r)) = []).
Proof.
  intros v r. subst v r.
  destruct (mach_post_run sem w) as (Hr & Ha & Hl).
  apply since_app in Hl.
  split; [exact Hr|]. split; [exact Ha|].
  split; [intros Hv; rewrite Ha; apply to_signed_id; lia|].
  split; [exact Hl|]. rewrite Hl.
  destruct (atom w <=? 0) eqn:E; simpl.
  - split; [split; [lia|reflexivity]|lia].
  - split; [split; [discriminate|lia]|reflexivity].
Qed.

Lemma mach_post_signals_witness :
  let w := snd (Mach.semaphore 5 (boot lp64 8)) in
  atom (snd (Mach.post (Some 1%positive) w)) = 6
  /\ List.filter is_native (since w (snd (Mach.post (Some 1%positive) w))) = [].
Proof.
  intros w.
  destruct (mach_post_signals_iff_nonpositive (Some 1%positive) w)
    as (_ & _ & Hinc & _ & _ & Hpos).
  split.
  - apply Hinc. vm_compute. split; [discriminate|reflexivity].
  - apply Hpos. vm_compute. reflexivity.
Defined.

(** C9: the constructor of the Mach variant first stores the requested
    count in the atomic counter and then creates the kernel semaphore with
    the value 0, whatever [initial] is; a semaphore it returns is a fresh
    kernel object whose count is 0. The stored value is [initial] converted
    to [intptr_t], which is [initial] itself whenever it fits. *)
Theorem mach_construct_kernel_count_zero (initial : Z) (w : world) :
  let r := Mach.semaphore initial w in
  since w (snd r) =
    [ev_store (to_intptr (cfg w) initial);
     ev_semaphore_create SYNC_POLICY_FIFO 0]
  /\ atom (snd r) = to_intptr (cfg w) initial
  /\ (0 <= initial <= INTPTR_MAX (cfg w) -> atom (snd r) = initial)
  /\ (forall sem, fst r = Done sem ->
        exists p, sem = Some p /\ kobjs w !! p = None
                  /\ kobjs (snd r) = <[p := KObj 0 None]> (kobjs w)).
Proof.
  intros r. subst r.
  destruct (mach_construct_run initial w) as (Hl & Ha & Hok & Hfail).
  apply since_app in Hl.
  split; [exact Hl|]. split; [exact Ha|].
  split.
  - intros Hi. rewrite Ha. apply to_signed_id.
    unfold INTPTR_MIN, INTPTR_MAX, word_bits in *. destruct (model (cfg w)); lia.
  - intros sem Hd.
    destruct (decide (size (kobjs w) < kquota w)%nat) as [Hq|Hq].
    + destruct (Hok Hq) as (Hr & Hk). rewrite Hr in Hd. injection Hd as <-.
      eexists. split; [reflexivity|]. split; [|exact Hk].
      apply not_elem_of_dom. apply is_fresh.
    + destruct (Hfail Hq) as (Hr & _). rewrite Hr in Hd. discriminate.
Qed.

Lemma mach_construct_witness :
  atom (snd (Mach.semaphore 7 (boot ilp32 8))) = 7
  /\ kobjs (snd (Mach.semaphore 7 (boot ilp32 8))) !! 1%positive = Some (KObj 0 None).
Proof.
  destruct (mach_construct_kernel_count_zero 7 (boot ilp32 8))
    as (_ & _ & Hfit & Hobj).
  split.
  - apply Hfit. vm_compute. split; discriminate.
  - destruct (Hobj (Some 1%positive)) as (p & Hp & _ & Hk); [reflexivity|].
    injection Hp as <-. rewrite Hk. apply lookup_insert_eq.
Defined.

(** C10: [try_wait] of the Mach variant finishes its loop, and it writes to
    the atomic counter at most once. When the value it loads is not
    negative it only loads and then calls [semaphore_wait]: no write, and
    the counter is as before. Its one possible write is the successful
    compare-exchange from a negative [o] to [o + 1]; that is its last
    operation and the call then returns false. *)
Theorem mach_try_wait_counter_frame (sem : HANDLE) (w : world) :
  let r := Mach.try_wait sem w in
  fst r <> OutOfFuel
  /\ (0 <= atom w ->
        since w (snd r) = [ev_load (atom w); ev_semaphore_wait sem]
        /\ List.filter is_write (since w (snd r)) = []
        /\ atom (snd r) = atom w)
  /\ (List.filter is_write (since w (snd r)) = []
      \/ exists o, o < 0
           /\ List.filter is_write (since w (snd r)) =
                [ev_compare_exchange_weak o (o + 1) true]
           /\ last (since w (snd r)) =
                Some (ev_compare_exchange_weak o (o + 1) true)
           /\ fst r = Done false
           /\ atom (snd r) = o + 1).
Proof.
  intros r. subst r. unfold Mach.try_wait, atomic_load. unfold_calls.
  set (w1 := logged (ev_load (atom w)) w).
  assert (Hfuel := try_wait_loop_fuel (S (length (asched w1))) sem (atom w) w1
                     eq_refl (Nat.lt_succ_diag_r _)).
  destruct (try_wait_loop_run (S (length (asched w1))) sem (atom w) w1)
    as (evs & Hl & Hnn & Hw).
  cbv zeta in Hl, Hnn, Hw.
  set (r := Mach.try_wait_loop _ sem (atom w) w1) in *.
  assert (Hs : since w (snd r) = ev_load (atom w) :: evs).
  { apply since_app. rewrite Hl. unfold w1. simpl. rewrite <- app_assoc. reflexivity. }
  rewrite Hs. split; [exact Hfuel|]. split.
  - intros Hv. destruct (Hnn Hv) as (-> & Ha). auto.
  - simpl. destruct Hw as [Hw|(o & Ho & Hw & Hlast & Hr & Ha)]; [left; exact Hw|].
    right. exists o. repeat split; auto.
    destruct evs; [discriminate|exact Hlast].
Qed.

Lemma mach_try_wait_counter_witness :
  let w := snd (Mach.semaphore 3 (boot lp64 8)) in
  atom (snd (Mach.try_wait (Some 1%positive) w)) = 3.
Proof.
  intros w.
  destruct (mach_try_wait_counter_frame (Some 1%positive) w) as (_ & Hnn & _).
  destruct Hnn as (_ & _ & Ha); [vm_compute; discriminate|].
  rewrite Ha. reflexivity.
Defined.

(** ** Claims about errors *)

Lemma win32_construct_too_large (initial : Z) (w : world) :
  INT_MAX < initial -> Win32.semaphore initial w = (Raise value_too_large, w).
Proof.
  intros Hi. unfold Win32.semaphore.
  destruct (initial >? INT_MAX) eqn:E; [reflexivity|lia].
Qed.

Lemma win32_post_run (mSem : HANDLE) (w : world) :
  fst (Win32.post mSem w) =
    if can_release mSem w then Done tt else Raise value_too_large.
Proof.
  unfold Win32.post, ReleaseSemaphore, k_release, can_release.
  unfold_calls. simpl. rewrite klookup_logged.
  destruct (klookup mSem w) as [[p o]|]; simpl; [|reflexivity].
  destruct (within _ _); reflexivity.
Qed.

Lemma dispatch_post_run (mSem : HANDLE) (w : world) :
  fst (Dispatch.post mSem w) = Done tt.
Proof.
  unfold Dispatch.post, dispatch_semaphore_signal, k_release.
  unfold_calls. simpl. rewrite klookup_logged.
  destruct (klookup mSem w) as [[p o]|]; simpl; [|reflexivity].
  destruct (within _ _); reflexivity.
Qed.

Lemma posix_post_run (mSem : HANDLE) (w : world) :
  fst (Posix.post mSem w) =
    if can_release mSem w then Done tt else Raise value_too_large.
Proof.
  unfold Posix.post, sem_post, k_live, k_release, can_release.
  unfold_calls. simpl. rewrite !klookup_logged.
  destruct (klookup mSem w) as [[p o]|] eqn:E; simpl; [|reflexivity].
  rewrite ?klookup_logged, ?E. destruct (within _ _); reflexivity.
Qed.

(** C5: on the Win32 variant, a count above [INT_MAX] makes the constructor
    throw [value_too_large] before any native call (the world is left as it
    was), and whenever the constructor throws, with either error, the
    kernel's table of objects is the one it started from. *)
Theorem win32_construct_oversized (initial : Z) (w : world) :
  (INT_MAX < initial -> Win32.semaphore initial w = (Raise value_too_large, w))
  /\ (forall e, fst (Win32.semaphore initial w) = Raise e ->
        kobjs (snd (Win32.semaphore initial w)) = kobjs w).
Proof.
  split; [apply win32_construct_too_large|].
  intros e. unfold Win32.semaphore.
  destruct (initial >? INT_MAX); [reflexivity|].
  unfold CreateSemaphore, k_alloc. unfold_calls. simpl.
  destruct (_ || _); simpl; [reflexivity|].
  destruct (bool_decide _); simpl; [discriminate|reflexivity].
Qed.

Lemma win32_construct_oversized_witness :
  Win32.semaphore 2147483648 (boot lp64 8) = (Raise value_too_large, boot lp64 8)
  /\ kobjs (snd (Win32.semaphore 5 (boot lp64 0))) = kobjs (boot lp64 0).
Proof.
  split.
  - apply (proj1 (win32_construct_oversized 2147483648 (boot lp64 8))).
    reflexivity.
  - apply (proj2 (win32_construct_oversized 5 (boot lp64 0))
             resource_unavailable_try_again).
    reflexivity.
Defined.



(** C4 fails on the POSIX variant: a semaphore built with
    [SEM_VALUE_MAX] tokens is full, [sem_post] reports it, and [post]
    throws. *)
Lemma posix_post_surfaces_overflow :
  exists mSem w,
    Posix.semaphore 2147483647 (boot lp64 8) = (Done mSem, w)
    /\ fst (post PosixBackend mSem w) = Raise value_too_large.
Proof. eexists _, _. split; vm_compute; reflexivity. Qed.

(** C4 as amended: [post] returns normally on the Dispatch and Mach
    variants in every state; on the Win32 and POSIX variants it returns
    normally when the kernel accepts one more token on the handle and
    throws [value_too_large] when it does not. *)
Theorem post_error_surface (b : backend) (mSem : HANDLE) (w : world) :
  fst (post b mSem w) =
    match b with
    | DispatchBackend | MachBackend => Done tt
    | WindowsBackend | PosixBackend =>
        if can_release mSem w then Done tt else Raise value_too_large
    end.
Proof.
  destruct b; simpl.
  - apply win32_post_run.
  - apply dispatch_post_run.
  - apply mach_post_run.
  - apply posix_post_run.
Qed.

(** ** The three variants that lean on the native primitive alone *)

Lemma await_run (interruptible : bool) (s : list kevent) :
  match await interruptible s with
  | (Some Acquired, rest) =>
      posts s = posts rest + 1 /\ (length rest < length s)%nat
  | (Some Interrupted, rest) =>
      interruptible = true /\ posts s = posts rest /\ (length rest < length s)%nat
  | (Some _, _) => False
  | (None, _) => True
  end.
Proof.
  induction s as [|[|] s IH]; simpl; [exact I| |].
  - unfold posts. simpl. lia.
  - destruct interruptible.
    + unfold posts. simpl. lia.
    + destruct (await false s) as [[[]|] rest]; unfold posts in *; simpl in *;
        try tauto; intuition lia.
Qed.

(** A native wait on a live object: it yields [Acquired] only by taking
    one token within reach, [Interrupted] only for an interruptible
    blocking wait and then with every token left in place, and never parks
    the thread unless it is a blocking wait. *)
Lemma k_acquire_run (h : HANDLE) (blocking interruptible : bool) (w : world)
    (p : positive) (o : kobj) :
  klookup h w = Some (p, o) ->
  let r := k_acquire h blocking interruptible w in
  klookup h (snd r) <> None
  /\ log (snd r) = log w
  /\ match fst r with
     | Done Acquired => tokens p (snd r) = tokens p w - 1
     | Done Interrupted =>
         blocking = true /\ interruptible = true
         /\ tokens p (snd r) = tokens p w
         /\ (length (ksched (snd r)) < length (ksched w))%nat
     | Done TimedOut => blocking = false /\ kcount o <= 0 /\ snd r = w
     | Done BadObject => False
     | Suspended => blocking = true
     | Raise _ | OutOfFuel => False
     end.
Proof.
  intros Hk. unfold k_acquire. rewrite Hk.
  assert (Hp : h = Some p /\ kobjs w !! p = Some o).
  { unfold klookup in Hk. destruct h as [q|]; [|discriminate].
    destruct (kobjs w !! q) eqn:E; [|discriminate]. injection Hk as -> ->. auto. }
  destruct Hp as (-> & Hp).
  destruct (0 <? kcount o) eqn:Cnt; simpl.
  - unfold tokens. simpl. rewrite lookup_insert_eq, Hp. simpl.
    split; [discriminate|]. split; [reflexivity|lia].
  - destruct blocking; simpl.
    + pose proof (await_run interruptible (ksched w)) as Ha.
      destruct (await interruptible (ksched w)) as [[[]|] rest]; simpl;
        unfold tokens; simpl; rewrite Hp; simpl;
        (split; [discriminate|]); (split; [reflexivity|]);
        try tauto; intuition lia.
    + rewrite Hp. split; [discriminate|]. split; [reflexivity|].
      repeat split; lia.
Qed.

Lemma k_acquire_total (h : HANDLE) (blocking interruptible : bool) (w : world) :
  (exists a w', k_acquire h blocking interruptible w = (Done a, w'))
  \/ (exists w', k_acquire h blocking interruptible w = (Suspended, w')).
Proof.
  unfold k_acquire.
  destruct (klookup h w) as [[p o]|]; [|left; eauto].
  destruct (0 <? kcount o); [left; eauto|].
  destruct blocking; [|left; eauto].
  destruct (await interruptible (ksched w)) as [[a|] rest]; [left|right]; eauto.
Qed.

Lemma klookup_live (h : HANDLE) (w : world) (p : positive) (o : kobj) :
  klookup h w = Some (p, o) -> h = Some p.
Proof.
  unfold klookup. destruct h as [q|]; [|discriminate].
  destruct (kobjs w !! q); [|discriminate]. congruence.
Qed.

Lemma klookup_same_handle (p : positive) (w : world) :
  klookup (Some p) w <> None -> exists o, klookup (Some p) w = Some (p, o).
Proof.
  unfold klookup. destruct (kobjs w !! p) as [o|]; [eauto|congruence].
Qed.

Lemma win32_wait_run (mSem : HANDLE) (w : world) (p : positive) (o : kobj) :
  klookup mSem w = Some (p, o) ->
  fst (Win32.wait mSem w) = Done tt ->
  tokens p (snd (Win32.wait mSem w)) = tokens p w - 1.
Proof.
  intros Hk. unfold Win32.wait, WaitForSingleObject. unfold_calls. simpl.
  pose proof (k_acquire_run mSem true false (logged (ev_WaitForSingleObject mSem INFINITE) w) p o Hk)
    as (_ & _ & Hr).
  destruct (k_acquire _ _ _ _) as [[[]| | |] w']; simpl in *;
    try discriminate; try tauto.
  all: destruct Hr as (H1 & H2 & _); first [discriminate H1 | discriminate H2].
Qed.

Lemma dispatch_wait_run (mSem : HANDLE) (w : world) (p : positive) (o : kobj) :
  klookup mSem w = Some (p, o) ->
  fst (Dispatch.wait mSem w) = Done tt ->
  tokens p (snd (Dispatch.wait mSem w)) = tokens p w - 1.
Proof.
  intros Hk. unfold Dispatch.wait, dispatch_semaphore_wait. unfold_calls. simpl.
  pose proof (k_acquire_run mSem true false
                (logged (ev_dispatch_semaphore_wait mSem DISPATCH_TIME_FOREVER) w) p o Hk)
    as (_ & _ & Hr).
  destruct (k_acquire _ _ _ _) as [[[]| | |] w']; simpl in *;
    try discriminate; try tauto.
  all: destruct Hr as (H1 & H2 & _); first [discriminate H1 | discriminate H2].
Qed.

(** The loop of the POSIX [wait]: it ends within its rounds, never throws,
    and when it returns one token within reach has been taken, however
    many times [sem_wait] was interrupted on the way. *)
Lemma wait_loop_run (fuel : nat) (mSem : HANDLE) (w : world) (p : positive) (o : kobj) :
  klookup mSem w = Some (p, o) ->
  (length (ksched w) < fuel)%nat ->
  match fst (Posix.wait_loop fuel mSem w) with
  | Done _ => tokens p (snd (Posix.wait_loop fuel mSem w)) = tokens p w - 1
  | Suspended => True
  | Raise _ | OutOfFuel => False
  end.
Proof.
  revert w o. induction fuel as [|fuel IH]; intros w o Hk Hf; [lia|].
  simpl. unfold sem_wait. unfold_calls. simpl.
  pose proof (klookup_live _ _ _ _ Hk) as ->.
  pose proof (k_acquire_run (Some p) true true (logged (ev_sem_wait (Some p)) w) p o Hk)
    as (Hlive & _ & Hr).
  destruct (k_acquire _ _ _ _) as [[[]| | |] w'];
    cbn [fst snd] in Hr, Hlive; simpl; try tauto.
  - destruct Hr as (H1 & _). discriminate H1.
  - destruct Hr as (_ & _ & Ht & Hlen).
    destruct (klookup_same_handle p w' Hlive) as (o' & Hk').
    assert (Hf' : (length (ksched (set_errno EINTR w')) < fuel)%nat)
      by (simpl in *; lia).
    specialize (IH (set_errno EINTR w') o' Hk' Hf').
    destruct (fst (Posix.wait_loop fuel (Some p) (set_errno EINTR w')));
      try tauto.
    rewrite IH. change (tokens p (set_errno EINTR w')) with (tokens p w').
    rewrite Ht. reflexivity.
Qed.

Lemma wait_loop_fuel (fuel : nat) (mSem : HANDLE) (w : world) :
  (length (ksched w) < fuel)%nat ->
  (forall e, fst (Posix.wait_loop fuel mSem w) <> Raise e)
  /\ fst (Posix.wait_loop fuel mSem w) <> OutOfFuel.
Proof.
  revert w. induction fuel as [|fuel IH]; intros w Hf; [lia|].
  simpl. unfold sem_wait. unfold_calls. simpl.
  destruct (klookup mSem w) as [[p o]|] eqn:Hk.
  - pose proof (wait_loop_run (S fuel) mSem w p o Hk Hf) as H.
    simpl in H. unfold sem_wait in H. unfold_calls. simpl in H.
    destruct (fst _); try tauto; split; intros; discriminate.
  - unfold k_acquire. simpl. rewrite klookup_logged, Hk. simpl.
    split; intros; discriminate.
Qed.

(** [wait] returns only with a token on the Win32, Dispatch and POSIX
    variants: on a live semaphore a return means one token within reach was
    taken. *)
Lemma wait_takes_one_token (b : backend) (mSem : HANDLE) (w : world)
    (p : positive) (o : kobj) :
  b <> MachBackend ->
  klookup mSem w = Some (p, o) ->
  fst (wait b mSem w) = Done tt ->
  tokens p (snd (wait b mSem w)) = tokens p w - 1.
Proof.
  intros Hb Hk. destruct b; simpl; [| |congruence|].
  - apply (win32_wait_run mSem w p o Hk).
  - apply (dispatch_wait_run mSem w p o Hk).
  - unfold Posix.wait, fueled.
    pose proof (wait_loop_run (S (length (ksched w))) mSem w p o Hk
                  (Nat.lt_succ_diag_r _)) as H.
    intros Hd. rewrite Hd in H. exact H.
Qed.

(** No variant of [wait] throws, and the loop of the POSIX one ends. *)
Lemma wait_never_throws (b : backend) (mSem : HANDLE) (w : world) :
  (forall e, fst (wait b mSem w) <> Raise e)
  /\ fst (wait b mSem w) <> OutOfFuel.
Proof.
  destruct b; simpl.
  - unfold Win32.wait, WaitForSingleObject. unfold_calls. simpl.
    destruct (k_acquire_total mSem true false
                (logged (ev_WaitForSingleObject mSem INFINITE) w))
      as [(a & w' & ->)|(w' & ->)]; simpl; split; intros; discriminate.
  - unfold Dispatch.wait, dispatch_semaphore_wait. unfold_calls. simpl.
    destruct (k_acquire_total mSem true false
                (logged (ev_dispatch_semaphore_wait mSem DISPATCH_TIME_FOREVER) w))
      as [(a & w' & ->)|(w' & ->)]; simpl; split; intros; discriminate.
  - unfold Mach.wait, fetch_sub, semaphore_wait. unfold_calls. simpl.
    destruct (atom w <? 0); simpl; [|split; intros; discriminate].
    match goal with
    | |- context [k_acquire ?h ?bl ?i ?w0] =>
        destruct (k_acquire_total h bl i w0) as [(a & w' & ->)|(w' & ->)]
    end; simpl; split; intros; discriminate.
  - unfold Posix.wait, fueled. apply wait_loop_fuel. lia.
Qed.

Lemma k_acquire_log (h : HANDLE) (blocking interruptible : bool) (w : world) :
  log (snd (k_acquire h blocking interruptible w)) = log w.
Proof.
  unfold k_acquire. destruct (klookup h w) as [[p o]|]; [|reflexivity].
  destruct (0 <? kcount o); [reflexivity|].
  destruct blocking; [|reflexivity].
  destruct (await interruptible (ksched w)) as [[a|] rest]; reflexivity.
Qed.

Lemma k_acquire_nonblocking (h : HANDLE) (interruptible : bool) (w : world) :
  fst (k_acquire h false interruptible w) <> Suspended.
Proof.
  unfold k_acquire. destruct (klookup h w) as [[p o]|]; [|discriminate].
  destruct (0 <? kcount o); discriminate.
Qed.

Ltac log_of_run :=
  match goal with
  | |- context [k_acquire ?h false ?i ?w0] =>
      let Hl := fresh "Hl" in
      let Hn := fresh "Hn" in
      pose proof (k_acquire_log h false i w0) as Hl;
      pose proof (k_acquire_nonblocking h i w0) as Hn;
      destruct (k_acquire h false i w0) as [[[]| | |] ?]
  end.

(** [post] parks the thread on no variant and issues no unbounded wait. *)
Lemma post_never_blocks (b : backend) (mSem : HANDLE) (w : world) :
  fst (post b mSem w) <> Suspended
  /\ List.filter is_unbounded_wait (since w (snd (post b mSem w))) = [].
Proof.
  destruct b; simpl.
  - unfold Win32.post, ReleaseSemaphore, k_release. unfold_calls. simpl.
    destruct (klookup mSem _) as [[p o]|]; simpl;
      [destruct (within _ _); simpl|];
      (split; [discriminate|]); erewrite since_app by reflexivity; reflexivity.
  - unfold Dispatch.post, dispatch_semaphore_signal, k_release. unfold_calls. simpl.
    destruct (klookup mSem _) as [[p o]|]; simpl;
      [destruct (within _ _); simpl|];
      (split; [discriminate|]); erewrite since_app by reflexivity; reflexivity.
  - destruct (mach_post_run mSem w) as (Hr & _ & Hl).
    rewrite Hr. split; [discriminate|].
    rewrite (since_app _ _ _ Hl). destruct (atom w <=? 0); reflexivity.
  - unfold Posix.post, sem_post, k_live, k_release. unfold_calls. simpl.
    rewrite !klookup_logged.
    destruct (klookup mSem w) as [[p o]|] eqn:E; simpl;
      [rewrite ?klookup_logged, ?E; destruct (within _ _); simpl|];
      (split; [discriminate|]); erewrite since_app by reflexivity; reflexivity.
Qed.

(** [try_wait] parks the thread on none of the Win32, Dispatch and POSIX
    variants and issues no unbounded wait there. *)
Lemma try_wait_never_blocks (b : backend) (mSem : HANDLE) (w : world) :
  b <> MachBackend ->
  fst (try_wait b mSem w) <> Suspended
  /\ List.filter is_unbounded_wait (since w (snd (try_wait b mSem w))) = [].
Proof.
  intros Hb. destruct b; simpl; [| |congruence|].
  - unfold Win32.try_wait, WaitForSingleObject. unfold_calls. simpl.
    log_of_run; simpl in *;
      (split; [try discriminate; auto|]);
      erewrite since_app by (simpl; exact Hl); reflexivity.
  - unfold Dispatch.try_wait, dispatch_semaphore_wait. unfold_calls. simpl.
    log_of_run; simpl in *;
      (split; [try discriminate; auto|]);
      erewrite since_app by (simpl; exact Hl); reflexivity.
  - unfold Posix.try_wait, sem_trywait. unfold_calls. simpl.
    log_of_run; simpl in *;
      (split; [try discriminate; auto|]);
      erewrite since_app by (simpl; exact Hl); reflexivity.
Qed.

(** One [try_wait] on a live semaphore of the three variants: true and one
    token fewer when the count is positive, false and no change when it is
    zero. *)
Lemma try_wait_step (b : backend) (p : positive) (w : world) (o : kobj) :
  b <> MachBackend ->
  kobjs w !! p = Some o ->
  exists w',
    try_wait b (Some p) w = (Done (0 <? kcount o), w')
    /\ cfg w' = cfg w
    /\ ksched w' = ksched w
    /\ kobjs w' = if 0 <? kcount o
                  then <[p := KObj (kcount o - 1) (kmax o)]> (kobjs w)
                  else kobjs w.
Proof.
  intros Hb Hp. destruct b; simpl; [| |congruence|].
  - unfold Win32.try_wait, WaitForSingleObject, k_acquire, klookup.
    unfold_calls. simpl. rewrite Hp.
    destruct (0 <? kcount o); simpl; eauto.
  - unfold Dispatch.try_wait, dispatch_semaphore_wait, k_acquire, klookup.
    unfold_calls. simpl. rewrite Hp.
    destruct (0 <? kcount o); simpl; eauto.
  - unfold Posix.try_wait, sem_trywait, k_acquire, klookup.
    unfold_calls. simpl. rewrite Hp.
    destruct (0 <? kcount o); simpl; eauto.
Qed.

Lemma probe_drains (b : backend) (p : positive) (n : nat) :
  b <> MachBackend ->
  forall (w : world) (m : option Z),
    kobjs w !! p = Some (KObj (Z.of_nat n) m) ->
    fst (probe b (Some p) (S n) w) = Done (replicate n true ++ [false]).
Proof.
  intros Hb. induction n as [|n IH]; intros w m Hp.
  - destruct (try_wait_step b p w _ Hb Hp) as (w' & Hr & _).
    simpl in *. unfold_calls. rewrite Hr. reflexivity.
  - destruct (try_wait_step b p w _ Hb Hp) as (w' & Hr & _ & _ & Hk).
    cbn [kcount kmax] in Hr, Hk.
    replace (0 <? Z.of_nat (S n)) with true in * by (symmetry; apply Z.ltb_lt; lia).
    assert (Hp' : kobjs w' !! p = Some (KObj (Z.of_nat n) m)).
    { rewrite Hk, lookup_insert_eq. do 2 f_equal. lia. }
    specialize (IH w' m Hp').
    change (probe b (Some p) (S (S n)) w)
      with ((r ← try_wait b (Some p); rs ← probe b (Some p) (S n); mret (r :: rs)) w).
    unfold_calls. rewrite Hr.
    destruct (probe b (Some p) (S n) w') as [res w'']. simpl in IH. subst res.
    reflexivity.
Qed.

(** The constructors of the three variants, given room in the kernel and
    a count the native primitive takes: a live object holding [initial]
    tokens. *)
Lemma construct_run (b : backend) (initial : Z) (w : world) :
  b <> MachBackend ->
  (size (kobjs w) < kquota w)%nat ->
  0 <= initial <= native_limit b (cfg w) ->
  exists p m w',
    construct b initial w = (Done (Some p), w')
    /\ kobjs w' !! p = Some (KObj initial m).
Proof.
  intros Hb Hq Hi.
  assert (Hd : bool_decide (size (kobjs w) < kquota w)%nat = true)
    by (apply bool_decide_eq_true; exact Hq).
  destruct b; simpl in *; [| |congruence|].
  - unfold Win32.semaphore, CreateSemaphore, k_alloc. unfold_calls.
    assert (to_LONG initial = initial) as ->.
    { unfold to_LONG, to_signed. unfold INT_MAX in Hi.
      rewrite Z.mod_small; lia. }
    destruct (initial >? INT_MAX) eqn:E1; [lia|].
    simpl. replace (initial <? 0) with false by (symmetry; apply Z.ltb_ge; lia).
    replace (INT_MAX <? initial) with false by (symmetry; apply Z.ltb_ge; lia).
    simpl. rewrite Hd. simpl.
    eexists _, _, _. split; [reflexivity|]. simpl. apply lookup_insert_eq.
  - unfold Dispatch.semaphore, dispatch_semaphore_create, k_alloc. unfold_calls.
    simpl.
    assert (to_long (cfg w) initial = initial) as ->.
    { apply to_signed_id. unfold INTPTR_MIN, INTPTR_MAX, word_bits in *.
      destruct (model (cfg w)); lia. }
    replace (initial <? 0) with false by (symmetry; apply Z.ltb_ge; lia).
    simpl. rewrite Hd. simpl.
    eexists _, _, _. split; [reflexivity|]. simpl. apply lookup_insert_eq.
  - unfold Posix.semaphore, sem_init, k_alloc. unfold_calls. simpl.
    replace (SEM_VALUE_MAX (cfg w) <? initial) with false
      by (symmetry; apply Z.ltb_ge; lia).
    simpl. rewrite Hd. simpl.
    eexists _, _, _. split; [reflexivity|]. simpl. apply lookup_insert_eq.
Qed.

(** What C2 asks, on the three variants that meet it: after building a
    semaphore with [n] tokens, [n] calls of [try_wait] in a row return
    true and the next one returns false. *)
Lemma try_wait_drains_tokens (b : backend) (n : nat) (w : world) :
  b <> MachBackend ->
  (size (kobjs w) < kquota w)%nat ->
  Z.of_nat n <= native_limit b (cfg w) ->
  fst ((mSem ← construct b (Z.of_nat n); probe b mSem (S n)) w) =
    Done (replicate n true ++ [false]).
Proof.
  intros Hb Hq Hn.
  destruct (construct_run b (Z.of_nat n) w Hb Hq ltac:(lia)) as (p & m & w' & Hc & Hp).
  unfold_calls. rewrite Hc.
  apply (probe_drains b p n Hb w' m Hp).
Qed.

Example try_wait_drains_three_tokens :
  fst ((mSem ← construct PosixBackend 3; probe PosixBackend mSem 4) (boot lp64 8)) =
    Done [true; true; true; false].
Proof.
  apply (try_wait_drains_tokens PosixBackend 3 (boot lp64 8));
    [discriminate | vm_compute; lia | vm_compute; discriminate].
Qed.

(** On the Mach variant the same experiment parks the thread at the first
    [try_wait], whatever the count the semaphore was built with. *)
Lemma mach_try_wait_parks (initial : Z) (w : world) :
  0 <= initial <= INTPTR_MAX (cfg w) ->
  (size (kobjs w) < kquota w)%nat ->
  ksched w = [] ->
  fst ((sem ← Mach.semaphore initial; Mach.try_wait sem) w) = Suspended.
Proof.
  intros Hi Hq Hs.
  assert (Hd : bool_decide (size (kobjs w) < kquota w)%nat = true)
    by (apply bool_decide_eq_true; exact Hq).
  assert (Hc : to_intptr (cfg w) initial = initial).
  { apply to_signed_id. unfold INTPTR_MIN, INTPTR_MAX, word_bits in *.
    destruct (model (cfg w)); lia. }
  unfold Mach.semaphore, Mach.try_wait, atomic_store, atomic_load,
    semaphore_create, k_alloc.
  unfold_calls. simpl. rewrite Hd. simpl. rewrite Hc.
  replace (initial <? 0) with false by (symmetry; apply Z.ltb_ge; lia).
  unfold semaphore_wait, k_acquire, klookup. unfold_calls. simpl.
  rewrite lookup_insert_eq. simpl. rewrite Hs. reflexivity.
Qed.

(** ** Where the Mach variant departs from the other three *)

(** C2, at the input where the code departs from it: on the Mach variant
    with no other thread running, the first [try_wait] on a semaphore built
    with one token does not return true, and the first [try_wait] on a
    semaphore built with none does not return false; both park the thread
    on the kernel semaphore, whose count is 0. *)
Theorem mach_try_wait_after_construct_parks :
  fst ((sem ← Mach.semaphore 1; Mach.try_wait sem) (boot lp64 8)) = Suspended
  /\ fst ((sem ← Mach.semaphore 0; Mach.try_wait sem) (boot lp64 8)) = Suspended.
Proof. split; vm_compute; reflexivity. Qed.

(** C6, at the inputs where the code departs from it. On the Mach variant
    a semaphore is built with no token and nobody posts. The first [wait]
    returns at once. The second reaches [semaphore_wait], a signal
    interrupts it, and [wait] returns without calling it again. Both calls
    return although no token ever existed: the kernel count is 0 at the
    end and the schedule held no post. *)
Theorem mach_wait_returns_without_token :
  let w0 := set_ksched [KInterrupt] (boot lp64 8) in
  let r := (sem ← Mach.semaphore 0; Mach.wait sem;; Mach.wait sem) w0 in
  fst r = Done tt
  /\ log (snd r) =
       [ev_store 0; ev_semaphore_create SYNC_POLICY_FIFO 0;
        ev_fetch_sub 0 1;
        ev_fetch_sub (-1) 1; ev_semaphore_wait (Some 1%positive)]
  /\ kobjs (snd r) !! 1%positive = Some (KObj 0 None)
  /\ ksched (snd r) = [].
Proof. vm_compute. repeat split. Qed.

(** C7, at the input where the code departs from it: on the Mach variant
    [try_wait] on a counter that is not negative issues [semaphore_wait],
    a wait without a time limit, and with nobody posting the thread stays
    parked in it. *)
Theorem mach_try_wait_reaches_unbounded_wait :
  let r := (sem ← Mach.semaphore 0; Mach.try_wait sem) (boot lp64 8) in
  List.filter is_unbounded_wait (log (snd r)) = [ev_semaphore_wait (Some 1%positive)]
  /\ fst r = Suspended.
Proof. vm_compute. split; reflexivity. Qed.

(** * Further properties of the four variants *)

(** ** Constructors and destructors *)

Lemma to_LONG_id (x : Z) : 0 <= x <= INT_MAX -> to_LONG x = x.
Proof.
  unfold to_LONG, to_signed, INT_MAX. intros H. rewrite Z.mod_small; lia.
Qed.

Lemma room_true (w : world) :
  (size (kobjs w) < kquota w)%nat ->
  bool_decide (size (kobjs w) < kquota w)%nat = true.
Proof. apply bool_decide_eq_true. Qed.

Lemma room_false (w : world) :
  ~ (size (kobjs w) < kquota w)%nat ->
  bool_decide (size (kobjs w) < kquota w)%nat = false.
Proof. apply bool_decide_eq_false. Qed.

Lemma fresh_handle_unused (w : world) : kobjs w !! fresh (dom (kobjs w)) = None.
Proof. apply not_elem_of_dom. apply is_fresh. Qed.

(** What the Win32 constructor does, by cases on the count and on the room
    the kernel has. *)
Lemma win32_construct_cases (initial : Z) (w : world) :
  0 <= initial ->
  Win32.semaphore initial w =
    if initial >? INT_MAX then (Raise value_too_large, w)
    else if bool_decide (size (kobjs w) < kquota w)%nat
    then (Done (Some (fresh (dom (kobjs w)))),
          set_kobjs (insert (fresh (dom (kobjs w))) (KObj initial (Some INT_MAX)))
            (logged (ev_CreateSemaphore initial INT_MAX) w))
    else (Raise resource_unavailable_try_again,
          logged (ev_CreateSemaphore initial INT_MAX) w).
Proof.
  intros H0. unfold Win32.semaphore.
  destruct (initial >? INT_MAX) eqn:E; [reflexivity|].
  rewrite to_LONG_id by lia.
  unfold CreateSemaphore, k_alloc. unfold_calls. simpl.
  replace (initial <? 0) with false by (symmetry; apply Z.ltb_ge; lia).
  replace (INT_MAX <? initial) with false by (symmetry; apply Z.ltb_ge; lia).
  simpl. destruct (bool_decide _); reflexivity.
Qed.

(** X1: the Win32 constructor throws [value_too_large] exactly for counts
    above [INT_MAX] (so [INT_MAX] itself is accepted), throws
    [resource_unavailable_try_again] exactly when the count is acceptable
    but the kernel has no room, and returns a handle in the remaining
    case. *)
Theorem win32_construct_outcomes (initial : Z) (w : world) :
  0 <= initial ->
  (fst (Win32.semaphore initial w) = Raise value_too_large <-> INT_MAX < initial)
  /\ (fst (Win32.semaphore initial w) = Raise resource_unavailable_try_again
      <-> initial <= INT_MAX /\ ~ (size (kobjs w) < kquota w)%nat)
  /\ ((exists mSem, fst (Win32.semaphore initial w) = Done mSem)
      <-> initial <= INT_MAX /\ (size (kobjs w) < kquota w)%nat).
Proof.
  intros H0. rewrite (win32_construct_cases initial w H0).
  destruct (initial >? INT_MAX) eqn:E; simpl.
  - assert (INT_MAX < initial) by lia.
    split; [tauto|]. split; [split; [discriminate|lia]|].
    split; [intros (? & ?); discriminate|lia].
  - assert (initial <= INT_MAX) by lia.
    destruct (decide (size (kobjs w) < kquota w)%nat) as [Hq|Hq].
    + rewrite (room_true w Hq). simpl.
      split; [split; [discriminate|lia]|].
      split; [split; [discriminate|tauto]|].
      split; [tauto|eauto].
    + rewrite (room_false w Hq). simpl.
      split; [split; [discriminate|lia]|].
      split; [tauto|].
      split; [intros (? & ?); discriminate|tauto].
Qed.

Lemma win32_construct_outcomes_witness :
  fst (Win32.semaphore 2147483647 (boot lp64 8)) = Done (Some 1%positive)
  /\ fst (Win32.semaphore 2147483648 (boot lp64 8)) = Raise value_too_large.
Proof.
  split.
  - reflexivity.
  - apply (proj1 (win32_construct_outcomes 2147483648 (boot lp64 8) ltac:(lia))).
    reflexivity.
Defined.

Lemma dispatch_construct_cases (initial : Z) (w : world) :
  Dispatch.semaphore initial w =
    let v := to_long (cfg w) initial in
    let w1 := logged (ev_dispatch_semaphore_create v) w in
    if v <? 0 then (Raise resource_unavailable_try_again, w1)
    else if bool_decide (size (kobjs w) < kquota w)%nat
    then (Done (Some (fresh (dom (kobjs w)))),
          set_kobjs (insert (fresh (dom (kobjs w))) (KObj v None)) w1)
    else (Raise resource_unavailable_try_again, w1).
Proof.
  unfold Dispatch.semaphore, dispatch_semaphore_create, k_alloc.
  unfold_calls. simpl.
  destruct (to_long (cfg w) initial <? 0); simpl; [reflexivity|].
  destruct (bool_decide _); reflexivity.
Qed.

Lemma posix_construct_cases (initial : Z) (w : world) :
  Posix.semaphore initial w =
    let w1 := logged (ev_sem_init 0 initial) w in
    if SEM_VALUE_MAX (cfg w) <? initial
    then (Raise resource_unavailable_try_again, set_errno EINVAL w1)
    else if bool_decide (size (kobjs w) < kquota w)%nat
    then (Done (Some (fresh (dom (kobjs w)))),
          set_kobjs (insert (fresh (dom (kobjs w)))
                       (KObj initial (Some (SEM_VALUE_MAX (cfg w))))) w1)
    else (Raise resource_unavailable_try_again, set_errno ENOSPC w1).
Proof.
  unfold Posix.semaphore, sem_init, k_alloc.
  unfold_calls. simpl.
  destruct (SEM_VALUE_MAX (cfg w) <? initial); simpl; [reflexivity|].
  destruct (bool_decide _); reflexivity.
Qed.

Lemma mach_construct_cases (initial : Z) (w : world) :
  Mach.semaphore initial w =
    let w1 := logged (ev_semaphore_create SYNC_POLICY_FIFO 0)
                (logged (ev_store (to_intptr (cfg w) initial))
                   (set_atom (to_intptr (cfg w) initial) w)) in
    if bool_decide (size (kobjs w) < kquota w)%nat
    then (Done (Some (fresh (dom (kobjs w)))),
          set_kobjs (insert (fresh (dom (kobjs w))) (KObj 0 None)) w1)
    else (Raise resource_unavailable_try_again, w1).
Proof.
  unfold Mach.semaphore, atomic_store, semaphore_create, k_alloc.
  unfold_calls. simpl.
  destruct (bool_decide _); reflexivity.
Qed.

Lemma construct_fresh (b : backend) (initial : Z) (w : world) :
  b <> MachBackend ->
  (size (kobjs w) < kquota w)%nat ->
  0 <= initial <= native_limit b (cfg w) ->
  exists p,
    fst (construct b initial w) = Done (Some p)
    /\ kobjs w !! p = None
    /\ kobjs (snd (construct b initial w)) =
         <[p := KObj initial (native_max b (cfg w))]> (kobjs w).
Proof.
  intros Hb Hq Hi. exists (fresh (dom (kobjs w))).
  pose proof (fresh_handle_unused w) as Hf.
  destruct b; simpl in *; [| |congruence|].
  - rewrite win32_construct_cases by lia.
    destruct (initial >? INT_MAX) eqn:E; [lia|].
    rewrite (room_true w Hq). auto.
  - rewrite dispatch_construct_cases. cbv zeta.
    assert (to_long (cfg w) initial = initial) as ->.
    { apply to_signed_id. unfold INTPTR_MIN, INTPTR_MAX, word_bits in *.
      destruct (model (cfg w)); lia. }
    replace (initial <? 0) with false by (symmetry; apply Z.ltb_ge; lia).
    rewrite (room_true w Hq). auto.
  - rewrite posix_construct_cases. cbv zeta.
    replace (SEM_VALUE_MAX (cfg w) <? initial) with false
      by (symmetry; apply Z.ltb_ge; lia).
    rewrite (room_true w Hq). auto.
Qed.

(** X2: on the Win32, Dispatch and POSIX variants, when the kernel has room
    and the count is one the native primitive takes, the constructor
    returns a handle that was not in use, the new object holds exactly
    [initial] tokens under the variant's maximum, every other handle
    designates what it did before, and the kernel holds one object more. *)
Theorem construct_yields_fresh_object (b : backend) (initial : Z) (w : world) :
  b <> MachBackend ->
  (size (kobjs w) < kquota w)%nat ->
  0 <= initial <= native_limit b (cfg w) ->
  exists p,
    fst (construct b initial w) = Done (Some p)
    /\ kobjs w !! p = None
    /\ kobjs (snd (construct b initial w)) !! p =
         Some (KObj initial (native_max b (cfg w)))
    /\ (forall q, q <> p ->
          kobjs (snd (construct b initial w)) !! q = kobjs w !! q)
    /\ size (kobjs (snd (construct b initial w))) = S (size (kobjs w)).
Proof.
  intros Hb Hq Hi.
  destruct (construct_fresh b initial w Hb Hq Hi) as (p & Hr & Hnew & Hk).
  exists p. rewrite Hk.
  split; [exact Hr|]. split; [exact Hnew|].
  split; [apply lookup_insert_eq|].
  split; [intros q Hne; apply lookup_insert_ne; congruence|].
  apply map_size_insert_None. exact Hnew.
Qed.

Lemma construct_yields_fresh_object_witness :
  exists p,
    fst (construct DispatchBackend 3 (boot ilp32 2)) = Done (Some p)
    /\ kobjs (boot ilp32 2) !! p = None
    /\ kobjs (snd (construct DispatchBackend 3 (boot ilp32 2))) !! p =
         Some (KObj 3 None)
    /\ (forall q, q <> p ->
          kobjs (snd (construct DispatchBackend 3 (boot ilp32 2))) !! q =
            kobjs (boot ilp32 2) !! q)
    /\ size (kobjs (snd (construct DispatchBackend 3 (boot ilp32 2)))) = 1%nat.
Proof.
  apply (construct_yields_fresh_object DispatchBackend 3 (boot ilp32 2)).
  - discriminate.
  - vm_compute. lia.
  - vm_compute. split; discriminate.
Defined.

(** X3: the constructors of the Dispatch, Mach and POSIX variants throw
    nothing but [resource_unavailable_try_again], and when one throws the
    kernel's table of objects is the one it started from. *)
Theorem construct_failure_is_unavailable
    (b : backend) (initial : Z) (w : world) (e : errc) :
  b <> WindowsBackend ->
  fst (construct b initial w) = Raise e ->
  e = resource_unavailable_try_again
  /\ kobjs (snd (construct b initial w)) = kobjs w.
Proof.
  intros Hb. destruct b; simpl; [congruence| | |].
  - rewrite dispatch_construct_cases. cbv zeta.
    destruct (_ <? 0); simpl; [intros [= <-]; auto|].
    destruct (bool_decide _); simpl; [discriminate|intros [= <-]; auto].
  - rewrite mach_construct_cases. cbv zeta.
    destruct (bool_decide _); simpl; [discriminate|intros [= <-]; auto].
  - rewrite posix_construct_cases. cbv zeta.
    destruct (_ <? initial); simpl; [intros [= <-]; auto|].
    destruct (bool_decide _); simpl; [discriminate|intros [= <-]; auto].
Qed.

Lemma construct_failure_is_unavailable_witness :
  kobjs (snd (construct MachBackend 1 (boot lp64 0))) = kobjs (boot lp64 0).
Proof.
  apply (construct_failure_is_unavailable MachBackend 1 (boot lp64 0)
           resource_unavailable_try_again).
  - discriminate.
  - reflexivity.
Defined.

(** X4: the POSIX constructor given a count above [SEM_VALUE_MAX] throws
    [resource_unavailable_try_again] (not [value_too_large], which the
    Win32 variant uses for the same misuse), with [errno] left at [EINVAL]
    by [sem_init] and no kernel object created. *)
Theorem posix_construct_oversized (initial : Z) (w : world) :
  SEM_VALUE_MAX (cfg w) < initial ->
  fst (Posix.semaphore initial w) = Raise resource_unavailable_try_again
  /\ errno (snd (Posix.semaphore initial w)) = EINVAL
  /\ kobjs (snd (Posix.semaphore initial w)) = kobjs w
  /\ since w (snd (Posix.semaphore initial w)) = [ev_sem_init 0 initial].
Proof.
  intros Hi. rewrite posix_construct_cases. cbv zeta.
  replace (SEM_VALUE_MAX (cfg w) <? initial) with true
    by (symmetry; apply Z.ltb_lt; lia).
  simpl. repeat split. apply since_app. reflexivity.
Qed.

Lemma posix_construct_oversized_witness :
  fst (Posix.semaphore 4294967295 (boot lp64 8)) =
    Raise resource_unavailable_try_again.
Proof.
  apply (posix_construct_oversized 4294967295 (boot lp64 8)). reflexivity.
Defined.

(** X5: on every variant, destroying a semaphore right after constructing
    it returns normally and gives the kernel's table of objects back as it
    was before the constructor ran. *)
Theorem construct_destroy_restores_kernel
    (b : backend) (initial : Z) (w w1 : world) (mSem : HANDLE) :
  construct b initial w = (Done mSem, w1) ->
  fst (destroy b mSem w1) = Done tt
  /\ kobjs (snd (destroy b mSem w1)) = kobjs w.
Proof.
  pose proof (fresh_handle_unused w) as Hf.
  assert (Hdel : forall o, delete (fresh (dom (kobjs w)))
                   (<[fresh (dom (kobjs w)) := o]> (kobjs w)) = kobjs w)
    by (intros o; apply delete_insert_id; exact Hf).
  destruct b; simpl.
  - unfold Win32.semaphore.
    destruct (initial >? INT_MAX); [discriminate|].
    unfold CreateSemaphore, k_alloc. unfold_calls. simpl.
    destruct (_ || _); simpl; [discriminate|].
    destruct (bool_decide _); simpl; [|discriminate].
    intros [= <- <-]. simpl. auto.
  - rewrite dispatch_construct_cases. cbv zeta.
    destruct (_ <? 0); [discriminate|].
    destruct (bool_decide _); [|discriminate].
    intros [= <- <-]. simpl. auto.
  - rewrite mach_construct_cases. cbv zeta.
    destruct (bool_decide _); [|discriminate].
    intros [= <- <-]. simpl. auto.
  - rewrite posix_construct_cases. cbv zeta.
    destruct (_ <? initial); [discriminate|].
    destruct (bool_decide _); [|discriminate].
    intros [= <- <-]. simpl. auto.
Qed.

Lemma construct_destroy_restores_kernel_witness :
  kobjs (snd (destroy PosixBackend (Some 1%positive)
                (snd (construct PosixBackend 4 (boot lp64 8))))) =
    kobjs (boot lp64 8).
Proof.
  apply (construct_destroy_restores_kernel PosixBackend 4 (boot lp64 8)
           (snd (construct PosixBackend 4 (boot lp64 8))) (Some 1%positive)).
  reflexivity.
Defined.

(** ** [post] and [try_wait] on the native variants *)

Lemma klookup_some (p : positive) (w : world) (o : kobj) :
  kobjs w !! p = Some o -> klookup (Some p) w = Some (p, o).
Proof. unfold klookup. intros ->. reflexivity. Qed.

Lemma native_post_cases (b : backend) (p : positive) (w : world) (o : kobj) :
  b <> MachBackend ->
  kobjs w !! p = Some o ->
  if within (kcount o + 1) (kmax o)
  then fst (post b (Some p) w) = Done tt
       /\ kobjs (snd (post b (Some p) w)) =
            <[p := KObj (kcount o + 1) (kmax o)]> (kobjs w)
  else fst (post b (Some p) w) =
         match b with
         | DispatchBackend => Done tt
         | _ => Raise value_too_large
         end
       /\ kobjs (snd (post b (Some p) w)) = kobjs w.
Proof.
  intros Hb Hp. pose proof (klookup_some p w o Hp) as Hk.
  remember (Some p) as h eqn:Eh. clear Eh.
  destruct b; simpl; [| |congruence|].
  - unfold Win32.post, ReleaseSemaphore, k_release. unfold_calls. simpl.
    rewrite klookup_logged, Hk.
    destruct (within _ _); simpl; auto.
  - unfold Dispatch.post, dispatch_semaphore_signal, k_release. unfold_calls. simpl.
    rewrite klookup_logged, Hk.
    destruct (within _ _); simpl; auto.
  - unfold Posix.post, sem_post, k_live, k_release. unfold_calls. simpl.
    rewrite !klookup_logged, Hk. simpl. rewrite ?klookup_logged, ?Hk.
    destruct (within _ _); simpl; auto.
Qed.

(** X6: on the Win32, Dispatch and POSIX variants, [post] on a live
    semaphore whose object has room adds exactly one token to it and
    returns. When the object is at its maximum, every kernel object is
    left as it was; the Win32 and POSIX variants then throw
    [value_too_large] and the Dispatch variant, which ignores the native
    result, returns. *)
Theorem native_post_effect (b : backend) (p : positive) (w : world) (o : kobj) :
  b <> MachBackend ->
  kobjs w !! p = Some o ->
  (within (kcount o + 1) (kmax o) = true ->
   fst (post b (Some p) w) = Done tt
   /\ kobjs (snd (post b (Some p) w)) !! p = Some (KObj (kcount o + 1) (kmax o))
   /\ forall q, q <> p -> kobjs (snd (post b (Some p) w)) !! q = kobjs w !! q)
  /\ (within (kcount o + 1) (kmax o) = false ->
      fst (post b (Some p) w) =
        match b with
        | DispatchBackend => Done tt
        | _ => Raise value_too_large
        end
      /\ kobjs (snd (post b (Some p) w)) = kobjs w).
Proof.
  intros Hb Hp. pose proof (native_post_cases b p w o Hb Hp) as H.
  destruct (within (kcount o + 1) (kmax o)); split; try discriminate; intros _.
  - destruct H as (Hr & Hk). rewrite Hk.
    split; [exact Hr|]. split; [apply lookup_insert_eq|].
    intros q Hne. apply lookup_insert_ne. congruence.
  - exact H.
Qed.

Lemma native_post_effect_witness :
  fst (post WindowsBackend (Some 1%positive)
         (snd (construct WindowsBackend 2147483647 (boot lp64 8)))) =
    Raise value_too_large
  /\ fst (post PosixBackend (Some 1%positive)
            (snd (construct PosixBackend 0 (boot lp64 8)))) = Done tt.
Proof.
  split.
  - apply (proj2 (native_post_effect WindowsBackend 1%positive
                    (snd (construct WindowsBackend 2147483647 (boot lp64 8)))
                    (KObj 2147483647 (Some INT_MAX))
                    ltac:(discriminate) eq_refl) eq_refl).
  - apply (proj1 (native_post_effect PosixBackend 1%positive
                    (snd (construct PosixBackend 0 (boot lp64 8)))
                    (KObj 0 (Some 2147483647))
                    ltac:(discriminate) eq_refl) eq_refl).
Defined.

(** X7: on the Win32, Dispatch and POSIX variants, [try_wait] returns
    whether the object of the semaphore held a token (false for a handle
    that is not live), takes that token and nothing else, does not consume
    the schedule, and performs a single native call, which is not an
    unbounded wait. *)
Theorem native_try_wait_outcome (b : backend) (mSem : HANDLE) (w : world) :
  b <> MachBackend ->
  fst (try_wait b mSem w) =
    Done (match klookup mSem w with
          | Some (_, o) => 0 <? kcount o
          | None => false
          end)
  /\ kobjs (snd (try_wait b mSem w)) =
       match klookup mSem w with
       | Some (p, o) =>
           if 0 <? kcount o
           then <[p := KObj (kcount o - 1) (kmax o)]> (kobjs w)
           else kobjs w
       | None => kobjs w
       end
  /\ ksched (snd (try_wait b mSem w)) = ksched w
  /\ length (since w (snd (try_wait b mSem w))) = 1%nat
  /\ List.filter is_unbounded_wait (since w (snd (try_wait b mSem w))) = [].
Proof.
  intros Hb. destruct b; simpl; [| |congruence|].
  - unfold Win32.try_wait, WaitForSingleObject, k_acquire. unfold_calls. simpl.
    rewrite klookup_logged.
    destruct (klookup mSem w) as [[p o]|]; simpl;
      [destruct (0 <? kcount o); simpl|];
      repeat split; erewrite since_app by reflexivity; reflexivity.
  - unfold Dispatch.try_wait, dispatch_semaphore_wait, k_acquire. unfold_calls. simpl.
    rewrite klookup_logged.
    destruct (klookup mSem w) as [[p o]|]; simpl;
      [destruct (0 <? kcount o); simpl|];
      repeat split; erewrite since_app by reflexivity; reflexivity.
  - unfold Posix.try_wait, sem_trywait, k_acquire. unfold_calls. simpl.
    rewrite klookup_logged.
    destruct (klookup mSem w) as [[p o]|]; simpl;
      [destruct (0 <? kcount o); simpl|];
      repeat split; erewrite since_app by reflexivity; reflexivity.
Qed.

Lemma native_try_wait_outcome_witness :
  let full := snd (construct DispatchBackend 1 (boot lp64 8)) in
  let empty := snd (construct PosixBackend 0 (boot lp64 8)) in
  (fst (try_wait DispatchBackend (Some 1%positive) full) = Done true
   /\ kobjs (snd (try_wait DispatchBackend (Some 1%positive) full)) !! 1%positive =
        Some (KObj 0 None))
  /\ (fst (try_wait PosixBackend (Some 1%positive) empty) = Done false
      /\ kobjs (snd (try_wait PosixBackend (Some 1%positive) empty)) = kobjs empty).
Proof.
  intros full empty. split.
  - destruct (native_try_wait_outcome DispatchBackend (Some 1%positive) full
                ltac:(discriminate)) as (Hr & Hk & _).
    split; [exact Hr|]. rewrite Hk. reflexivity.
  - destruct (native_try_wait_outcome PosixBackend (Some 1%positive) empty
                ltac:(discriminate)) as (Hr & Hk & _).
    split; [exact Hr|exact Hk].
Defined.

(** X8: on the Win32, Dispatch and POSIX variants, [post] followed by
    [try_wait] on a live semaphore with room for one more token returns
    true and leaves every kernel object as it was; when the semaphore was
    empty, one more [try_wait] returns false. *)
Theorem post_try_wait_round_trip (b : backend) (p : positive) (w : world) (o : kobj) :
  b <> MachBackend ->
  kobjs w !! p = Some o ->
  0 <= kcount o ->
  within (kcount o + 1) (kmax o) = true ->
  fst ((post b (Some p);; try_wait b (Some p)) w) = Done true
  /\ kobjs (snd ((post b (Some p);; try_wait b (Some p)) w)) = kobjs w
  /\ (kcount o = 0 ->
      fst ((post b (Some p);; try_wait b (Some p);; try_wait b (Some p)) w) =
        Done false).
Proof.
  intros Hb Hp H0 Hroom.
  pose proof (native_post_cases b p w o Hb Hp) as Hpost.
  rewrite Hroom in Hpost. destruct Hpost as (Hr & Hk).
  unfold_calls.
  destruct (post b (Some p) w) as [r1 w1]. simpl in Hr, Hk. subst r1.
  assert (Hp1 : kobjs w1 !! p = Some (KObj (kcount o + 1) (kmax o))).
  { rewrite Hk. apply lookup_insert_eq. }
  destruct (try_wait_step b p w1 _ Hb Hp1) as (w2 & Hr2 & _ & _ & Hk2).
  cbn [kcount kmax] in Hr2, Hk2.
  replace (0 <? kcount o + 1) with true in * by (symmetry; apply Z.ltb_lt; lia).
  rewrite Hr2.
  assert (Hback : kobjs w2 = kobjs w).
  { rewrite Hk2, Hk, insert_insert_eq.
    replace (kcount o + 1 - 1) with (kcount o) by lia.
    destruct o. apply insert_id. exact Hp. }
  simpl. split; [reflexivity|]. split; [exact Hback|].
  intros Hz.
  assert (Hp2 : kobjs w2 !! p = Some o) by (rewrite Hback; exact Hp).
  destruct (try_wait_step b p w2 o Hb Hp2) as (w3 & Hr3 & _).
  rewrite Hr3. simpl. f_equal. apply Z.ltb_ge. lia.
Qed.

Lemma post_try_wait_round_trip_witness :
  fst ((post PosixBackend (Some 1%positive);; try_wait PosixBackend (Some 1%positive))
         (snd (construct PosixBackend 0 (boot lp64 8)))) = Done true.
Proof.
  apply (post_try_wait_round_trip PosixBackend 1%positive
           (snd (construct PosixBackend 0 (boot lp64 8)))
           (KObj 0 (Some 2147483647)));
    [discriminate|reflexivity|reflexivity|reflexivity].
Defined.

Lemma probe_drains_state (b : backend) (p : positive) (n : nat) :
  b <> MachBackend ->
  forall (w : world) (m : option Z),
    kobjs w !! p = Some (KObj (Z.of_nat n) m) ->
    fst (probe b (Some p) (S n) w) = Done (replicate n true ++ [false])
    /\ kobjs (snd (probe b (Some p) (S n) w)) = <[p := KObj 0 m]> (kobjs w).
Proof.
  intros Hb. induction n as [|n IH]; intros w m Hp.
  - destruct (try_wait_step b p w _ Hb Hp) as (w1 & Hr & _ & _ & Hk).
    simpl in Hr, Hk. simpl. unfold_calls. rewrite Hr. simpl.
    split; [reflexivity|]. rewrite Hk. symmetry. apply insert_id. exact Hp.
  - destruct (try_wait_step b p w _ Hb Hp) as (w1 & Hr & _ & _ & Hk).
    cbn [kcount kmax] in Hr, Hk.
    replace (0 <? Z.of_nat (S n)) with true in * by (symmetry; apply Z.ltb_lt; lia).
    replace (Z.of_nat (S n) - 1) with (Z.of_nat n) in Hk by lia.
    change (probe b (Some p) (S (S n)) w)
      with ((r ← try_wait b (Some p); rs ← probe b (Some p) (S n); mret (r :: rs)) w).
    unfold_calls. rewrite Hr.
    destruct (IH w1 m) as (Hr2 & Hk2); [rewrite Hk; apply lookup_insert_eq|].
    destruct (probe b (Some p) (S n) w1) as [r2 w2]. simpl in Hr2, Hk2. subst r2.
    simpl. split; [reflexivity|]. rewrite Hk2, Hk. apply insert_insert_eq.
Qed.

(** X9: on the Win32, Dispatch and POSIX variants, after constructing a
    semaphore with [n] tokens (the kernel having room and [n] being a
    count the native primitive takes), [n + 1] calls of [try_wait] in a
    row return true [n] times and then false, and leave the new object
    with no token. *)
Theorem native_try_wait_drains (b : backend) (n : nat) (w : world) :
  b <> MachBackend ->
  (size (kobjs w) < kquota w)%nat ->
  Z.of_nat n <= native_limit b (cfg w) ->
  let r := (mSem ← construct b (Z.of_nat n); probe b mSem (S n)) w in
  fst r = Done (replicate n true ++ [false])
  /\ exists p, kobjs w !! p = None
       /\ kobjs (snd r) = <[p := KObj 0 (native_max b (cfg w))]> (kobjs w).
Proof.
  intros Hb Hq Hn r. subst r.
  destruct (construct_fresh b (Z.of_nat n) w Hb Hq ltac:(lia))
    as (p & Hc & Hfresh & Hk).
  unfold_calls.
  destruct (construct b (Z.of_nat n) w) as [r1 w1]. simpl in Hc, Hk. subst r1.
  destruct (probe_drains_state b p n Hb w1 (native_max b (cfg w))) as (Hr & Hk2);
    [rewrite Hk; apply lookup_insert_eq|].
  split; [exact Hr|]. exists p. split; [exact Hfresh|].
  rewrite Hk2, Hk. apply insert_insert_eq.
Qed.

Lemma native_try_wait_drains_witness :
  fst ((mSem ← construct WindowsBackend 2; probe WindowsBackend mSem 3)
         (boot lp64 8)) = Done [true; true; false].
Proof.
  apply (native_try_wait_drains WindowsBackend 2 (boot lp64 8)).
  - discriminate.
  - vm_compute. lia.
  - vm_compute. discriminate.
Defined.

(** ** [wait] on the native variants *)

Lemma posts_nonneg (s : list kevent) : 0 <= posts s.
Proof. unfold posts. lia. Qed.

Lemma posts_cons_post (s : list kevent) : posts (KPost :: s) = posts s + 1.
Proof. unfold posts. simpl. lia. Qed.

Lemma posts_cons_interrupt (s : list kevent) : posts (KInterrupt :: s) = posts s.
Proof. reflexivity. Qed.

(** A thread parked in a wait that signals cannot interrupt: it resumes at
    the first post, if there is one. *)
Lemma await_uninterruptible (s : list kevent) :
  (0 < posts s ->
   exists rest, await false s = (Some Acquired, rest) /\ posts rest = posts s - 1)
  /\ (posts s <= 0 -> fst (await false s) = None).
Proof.
  induction s as [|[|] s IH].
  - unfold posts. simpl. split; [lia|reflexivity].
  - rewrite posts_cons_post. pose proof (posts_nonneg s). simpl. split; [|lia].
    intros _. exists s. split; [reflexivity|lia].
  - rewrite posts_cons_interrupt. simpl. exact IH.
Qed.

(** A blocking native wait on a live object that signals cannot interrupt:
    it returns exactly when a token is within reach, and then one token
    fewer is. *)
Lemma k_acquire_uninterruptible (p : positive) (w : world) (o : kobj) :
  kobjs w !! p = Some o ->
  0 <= kcount o ->
  (0 < tokens p w ->
   fst (k_acquire (Some p) true false w) = Done Acquired
   /\ tokens p (snd (k_acquire (Some p) true false w)) = tokens p w - 1)
  /\ (tokens p w <= 0 -> fst (k_acquire (Some p) true false w) = Suspended).
Proof.
  intros Hp H0. unfold k_acquire. rewrite (klookup_some p w o Hp).
  unfold tokens at 1 3 4. rewrite Hp.
  pose proof (posts_nonneg (ksched w)) as Hn.
  destruct (0 <? kcount o) eqn:Cnt; simpl.
  - split; [|lia]. intros _. split; [reflexivity|].
    unfold tokens. simpl. rewrite lookup_insert_eq. simpl. lia.
  - destruct (await_uninterruptible (ksched w)) as (Hpos & Hnone).
    split.
    + intros Ht. destruct Hpos as (rest & Ha & Hr); [lia|].
      rewrite Ha. simpl. split; [reflexivity|].
      unfold tokens. simpl. rewrite Hp. lia.
    + intros Ht. specialize (Hnone ltac:(lia)).
      destruct (await false (ksched w)) as [[a|] rest]; [discriminate|reflexivity].
Qed.

(** One [sem_wait] on a live object with no token, by what the schedule
    holds next. *)
Lemma sem_wait_empty (p : positive) (w : world) (o : kobj) :
  kobjs w !! p = Some o ->
  kcount o <= 0 ->
  sem_wait (Some p) w =
    let w1 := logged (ev_sem_wait (Some p)) w in
    match ksched w with
    | [] => (Suspended, set_ksched [] w1)
    | KPost :: rest => (Done 0, set_ksched rest w1)
    | KInterrupt :: rest => (Done (-1), set_errno EINTR (set_ksched rest w1))
    end.
Proof.
  intros Hp H0. unfold sem_wait, k_acquire. unfold_calls. cbv zeta.
  cbn [fst snd]. rewrite klookup_logged, (klookup_some p w o Hp).
  replace (0 <? kcount o) with false by (symmetry; apply Z.ltb_ge; lia).
  change (ksched (logged (ev_sem_wait (Some p)) w)) with (ksched w).
  destruct (ksched w) as [|[|] rest]; reflexivity.
Qed.

Lemma sem_wait_token (p : positive) (w : world) (o : kobj) :
  kobjs w !! p = Some o ->
  0 < kcount o ->
  sem_wait (Some p) w =
    (Done 0, set_kobjs (insert p (KObj (kcount o - 1) (kmax o)))
               (logged (ev_sem_wait (Some p)) w)).
Proof.
  intros Hp H0. unfold sem_wait, k_acquire. unfold_calls.
  cbn [fst snd]. rewrite klookup_logged, (klookup_some p w o Hp).
  replace (0 <? kcount o) with true by (symmetry; apply Z.ltb_lt; lia).
  reflexivity.
Qed.

Lemma wait_loop_outcome (p : positive) (fuel : nat) :
  forall (w : world) (o : kobj),
    kobjs w !! p = Some o ->
    0 <= kcount o ->
    (length (ksched w) < fuel)%nat ->
    (0 < tokens p w -> fst (Posix.wait_loop fuel (Some p) w) = Done tt)
    /\ (tokens p w <= 0 -> fst (Posix.wait_loop fuel (Some p) w) = Suspended).
Proof.
  induction fuel as [|fuel IH]; intros w o Hp H0 Hf; [lia|].
  pose proof (posts_nonneg (ksched w)) as Hn.
  unfold tokens. rewrite Hp.
  change (Posix.wait_loop (S fuel) (Some p) w)
    with ((r ← sem_wait (Some p); e ← get_errno;
           if (r =? -1) && (e =? EINTR) then Posix.wait_loop fuel (Some p)
           else mret tt) w).
  unfold_calls.
  destruct (0 <? kcount o) eqn:Cnt.
  - rewrite (sem_wait_token p w o Hp) by lia. simpl. split; [reflexivity|lia].
  - rewrite (sem_wait_empty p w o Hp) by lia. cbv zeta.
    destruct (ksched w) as [|[|] rest] eqn:Hs.
    + simpl. split; [unfold posts; simpl; lia|reflexivity].
    + simpl. rewrite posts_cons_post. pose proof (posts_nonneg rest).
      split; [reflexivity|lia].
    + simpl. rewrite posts_cons_interrupt.
      set (w' := set_errno EINTR (set_ksched rest (logged (ev_sem_wait (Some p)) w))).
      destruct (IH w' o Hp H0 ltac:(simpl in *; lia)) as (IH1 & IH2).
      unfold tokens in IH1, IH2. simpl in IH1, IH2. rewrite Hp in IH1, IH2.
      split; assumption.
Qed.

(** X10: on the Win32, Dispatch and POSIX variants, [wait] on a live
    semaphore returns exactly when a token is within reach (held by the
    object now, or posted by another thread later in the schedule), and
    then exactly one token has been taken; when none is within reach the
    thread stays parked. Signals delivered on the way change neither. *)
Theorem native_wait_outcome (b : backend) (p : positive) (w : world) (o : kobj) :
  b <> MachBackend ->
  kobjs w !! p = Some o ->
  0 <= kcount o ->
  (0 < tokens p w ->
   fst (wait b (Some p) w) = Done tt
   /\ tokens p (snd (wait b (Some p) w)) = tokens p w - 1)
  /\ (tokens p w <= 0 -> fst (wait b (Some p) w) = Suspended).
Proof.
  intros Hb Hp H0.
  destruct b; simpl; [| |congruence|].
  - unfold Win32.wait, WaitForSingleObject. unfold_calls. cbn [fst snd].
    change (INFINITE =? INFINITE) with true.
    destruct (k_acquire_uninterruptible p
                (logged (ev_WaitForSingleObject (Some p) INFINITE) w) o Hp H0)
      as (Hpos & Hneg).
    change (tokens p (logged (ev_WaitForSingleObject (Some p) INFINITE) w))
      with (tokens p w) in Hpos, Hneg.
    split; intros Ht.
    + destruct (Hpos Ht) as (Hr & Htok).
      destruct (k_acquire _ _ _ _) as [r1 w1]. simpl in Hr, Htok. subst r1.
      simpl. auto.
    + specialize (Hneg Ht).
      destruct (k_acquire _ _ _ _) as [r1 w1]. simpl in Hneg. subst r1.
      reflexivity.
  - unfold Dispatch.wait, dispatch_semaphore_wait. unfold_calls. cbn [fst snd].
    change (DISPATCH_TIME_FOREVER =? DISPATCH_TIME_FOREVER) with true.
    destruct (k_acquire_uninterruptible p
                (logged (ev_dispatch_semaphore_wait (Some p) DISPATCH_TIME_FOREVER) w)
                o Hp H0) as (Hpos & Hneg).
    change (tokens p (logged (ev_dispatch_semaphore_wait (Some p)
                                DISPATCH_TIME_FOREVER) w))
      with (tokens p w) in Hpos, Hneg.
    split; intros Ht.
    + destruct (Hpos Ht) as (Hr & Htok).
      destruct (k_acquire _ _ _ _) as [r1 w1]. simpl in Hr, Htok. subst r1.
      simpl. auto.
    + specialize (Hneg Ht).
      destruct (k_acquire _ _ _ _) as [r1 w1]. simpl in Hneg. subst r1.
      reflexivity.
  - unfold Posix.wait, fueled.
    destruct (wait_loop_outcome p (S (length (ksched w))) w o Hp H0
                (Nat.lt_succ_diag_r _)) as (Hpos & Hneg).
    split; [|exact Hneg].
    intros Ht. split; [exact (Hpos Ht)|].
    pose proof (wait_loop_run (S (length (ksched w))) (Some p) w p o
                  (klookup_some p w o Hp) (Nat.lt_succ_diag_r _)) as Hrun.
    rewrite (Hpos Ht) in Hrun. exact Hrun.
Qed.

Lemma native_wait_outcome_witness :
  let w := set_ksched [KInterrupt; KPost]
             (snd (construct PosixBackend 0 (boot lp64 8))) in
  fst (wait PosixBackend (Some 1%positive) w) = Done tt
  /\ fst (wait WindowsBackend (Some 1%positive)
            (snd (construct WindowsBackend 0 (boot lp64 8)))) = Suspended.
Proof.
  intros w. split.
  - apply (native_wait_outcome PosixBackend 1%positive w
             (KObj 0 (Some 2147483647)));
      [discriminate|reflexivity|simpl; lia|vm_compute; reflexivity].
  - apply (native_wait_outcome WindowsBackend 1%positive
             (snd (construct WindowsBackend 0 (boot lp64 8)))
             (KObj 0 (Some INT_MAX)));
      [discriminate|reflexivity|simpl; lia|vm_compute; discriminate].
Defined.

Lemma wait_loop_retries (p : positive) (rest : list kevent) (k : nat) :
  forall (fuel : nat) (w : world) (o : kobj),
    (k < fuel)%nat ->
    kobjs w !! p = Some o ->
    kcount o <= 0 ->
    ksched w = replicate k KInterrupt ++ KPost :: rest ->
    fst (Posix.wait_loop fuel (Some p) w) = Done tt
    /\ log (snd (Posix.wait_loop fuel (Some p) w)) =
         log w ++ replicate (S k) (ev_sem_wait (Some p))
    /\ ksched (snd (Posix.wait_loop fuel (Some p) w)) = rest
    /\ kobjs (snd (Posix.wait_loop fuel (Some p) w)) = kobjs w.
Proof.
  induction k as [|k IH]; intros fuel w o Hf Hp H0 Hs;
    (destruct fuel as [|fuel]; [lia|]);
    change (Posix.wait_loop (S fuel) (Some p) w)
      with ((r ← sem_wait (Some p); e ← get_errno;
             if (r =? -1) && (e =? EINTR) then Posix.wait_loop fuel (Some p)
             else mret tt) w);
    unfold_calls; rewrite (sem_wait_empty p w o Hp H0); cbv zeta; rewrite Hs.
  - simpl. auto.
  - simpl.
    set (w' := set_errno EINTR (set_ksched (replicate k KInterrupt ++ KPost :: rest)
                                  (logged (ev_sem_wait (Some p)) w))).
    destruct (IH fuel w' o ltac:(lia) Hp H0 eq_refl) as (Hr & Hl & Hk & Ho).
    split; [exact Hr|]. split; [|auto].
    rewrite Hl. unfold w'. simpl. rewrite <- app_assoc. reflexivity.
Qed.

(** X11: the POSIX [wait] on a live semaphore with no token, when [k]
    signals interrupt the thread before another thread posts: it calls
    [sem_wait] exactly [k + 1] times, returns, has consumed the schedule
    up to and including the post, and leaves the kernel objects as they
    were (the posted token went to this thread). *)
Theorem posix_wait_retries_interrupts
    (p : positive) (w : world) (o : kobj) (k : nat) (rest : list kevent) :
  kobjs w !! p = Some o ->
  kcount o <= 0 ->
  ksched w = replicate k KInterrupt ++ KPost :: rest ->
  fst (Posix.wait (Some p) w) = Done tt
  /\ since w (snd (Posix.wait (Some p) w)) = replicate (S k) (ev_sem_wait (Some p))
  /\ ksched (snd (Posix.wait (Some p) w)) = rest
  /\ kobjs (snd (Posix.wait (Some p) w)) = kobjs w.
Proof.
  intros Hp H0 Hs. unfold Posix.wait, fueled.
  assert (Hf : (k < S (length (ksched w)))%nat).
  { rewrite Hs, length_app, length_replicate. lia. }
  destruct (wait_loop_retries p rest k _ w o Hf Hp H0 Hs) as (Hr & Hl & Hk & Ho).
  split; [exact Hr|]. split; [apply since_app; exact Hl|]. auto.
Qed.

Lemma posix_wait_retries_interrupts_witness :
  let w := set_ksched [KInterrupt; KInterrupt; KPost; KInterrupt]
             (snd (Posix.semaphore 0 (boot lp64 8))) in
  since w (snd (Posix.wait (Some 1%positive) w)) =
    [ev_sem_wait (Some 1%positive); ev_sem_wait (Some 1%positive);
     ev_sem_wait (Some 1%positive)]
  /\ ksched (snd (Posix.wait (Some 1%positive) w)) = [KInterrupt].
Proof.
  intros w.
  destruct (posix_wait_retries_interrupts 1%positive w
              (KObj 0 (Some 2147483647)) 2 [KInterrupt])
    as (_ & Hl & Hk & _); [reflexivity|simpl; lia|reflexivity|].
  split; [exact Hl|exact Hk].
Defined.

(** ** The Mach variant beyond the claims *)

(** X12: the fast path of the Mach [wait]: with a positive counter it
    returns at once, the counter is one less, and it makes no native call
    and touches neither the kernel objects nor the schedule. *)
Theorem mach_wait_fast_path (sem : HANDLE) (w : world) :
  0 < atom w <= INTPTR_MAX (cfg w) ->
  fst (Mach.wait sem w) = Done tt
  /\ atom (snd (Mach.wait sem w)) = atom w - 1
  /\ since w (snd (Mach.wait sem w)) = [ev_fetch_sub (atom w) 1]
  /\ kobjs (snd (Mach.wait sem w)) = kobjs w
  /\ ksched (snd (Mach.wait sem w)) = ksched w.
Proof.
  intros Hv. unfold Mach.wait, fetch_sub. unfold_calls. cbn [fst snd].
  replace (atom w <? 0) with false by (symmetry; apply Z.ltb_ge; lia).
  simpl. split; [reflexivity|].
  split.
  { apply to_signed_id. unfold INTPTR_MIN, INTPTR_MAX, word_bits in *.
    destruct (model (cfg w)); lia. }
  split; [apply since_app; reflexivity|]. auto.
Qed.

Lemma mach_wait_fast_path_witness :
  let w := snd (Mach.semaphore 2 (boot ilp32 8)) in
  atom (snd (Mach.wait (Some 1%positive) w)) = 1.
Proof.
  intros w.
  destruct (mach_wait_fast_path (Some 1%positive) w) as (_ & Ha & _).
  - vm_compute. split; [reflexivity|discriminate].
  - exact Ha.
Defined.


Lemma k_release_one (h : HANDLE) (w : world) :
  k_release h 1 w =
    match klookup h w with
    | Some (p, o) =>
        if within (kcount o + 1) (kmax o)
        then (Done true, set_kobjs (insert p (KObj (kcount o + 1) (kmax o))) w)
        else (Done false, w)
    | None => (Done false, w)
    end.
Proof. reflexivity. Qed.

Lemma mach_post_world (sem : HANDLE) (w : world) :
  Mach.post sem w =
    let w1 := logged (ev_fetch_add (atom w) 1)
                (set_atom (to_intptr (cfg w) (atom w + 1)) w) in
    if atom w <=? 0
    then (Done tt, snd (k_release sem 1 (logged (ev_semaphore_signal sem) w1)))
    else (Done tt, w1).
Proof.
  unfold Mach.post, fetch_add, semaphore_signal. unfold_calls. cbn [fst snd].
  destruct (atom w <=? 0); [|reflexivity].
  cbv zeta. rewrite !k_release_one.
  destruct (klookup sem _) as [[p o]|]; [|reflexivity].
  destruct (within _ _); reflexivity.
Qed.

Lemma mach_wait_world (sem : HANDLE) (w : world) :
  Mach.wait sem w =
    let w1 := logged (ev_fetch_sub (atom w) 1)
                (set_atom (to_intptr (cfg w) (atom w - 1)) w) in
    if atom w <? 0
    then match k_acquire sem true true (logged (ev_semaphore_wait sem) w1) with
         | (Done _, w2) => (Done tt, w2)
         | (Raise e, w2) => (Raise e, w2)
         | (Suspended, w2) => (Suspended, w2)
         | (OutOfFuel, w2) => (OutOfFuel, w2)
         end
    else (Done tt, w1).
Proof.
  unfold Mach.wait, fetch_sub, semaphore_wait. unfold_calls. cbn [fst snd].
  destruct (atom w <? 0); [|reflexivity].
  cbv zeta. destruct (k_acquire _ _ _ _) as [[a| | |] w2]; reflexivity.
Qed.

(** X13: on the Mach variant, [post] followed by [wait] on the same thread
    never parks it: the pair returns, the counter is back at its value and
    the schedule is untouched. When the counter was below -1, [post]
    signals the kernel semaphore and [wait] takes that signal back, so the
    kernel objects are as before too. It is stated for a counter that
    [post] does not wrap and for a kernel semaphore as the constructor
    creates it (no maximum) whose count is not negative. *)
Theorem mach_post_then_wait (sem : HANDLE) (w : world) :
  INTPTR_MIN (cfg w) <= atom w < INTPTR_MAX (cfg w) ->
  (forall p o, klookup sem w = Some (p, o) -> 0 <= kcount o /\ kmax o = None) ->
  fst ((Mach.post sem;; Mach.wait sem) w) = Done tt
  /\ atom (snd ((Mach.post sem;; Mach.wait sem) w)) = atom w
  /\ ksched (snd ((Mach.post sem;; Mach.wait sem) w)) = ksched w
  /\ (atom w < -1 -> kobjs (snd ((Mach.post sem;; Mach.wait sem) w)) = kobjs w).
Proof.
  intros Hv Hk.
  assert (Hup : to_intptr (cfg w) (atom w + 1) = atom w + 1)
    by (apply to_signed_id; unfold INTPTR_MIN, INTPTR_MAX in *; lia).
  assert (Hdown : to_intptr (cfg w) (atom w + 1 - 1) = atom w).
  { replace (atom w + 1 - 1) with (atom w) by lia.
    apply to_signed_id. unfold INTPTR_MIN, INTPTR_MAX in *. lia. }
  unfold_calls. rewrite mach_post_world. cbv zeta. rewrite Hup.
  set (w1 := logged (ev_fetch_add (atom w) 1) (set_atom (atom w + 1) w)).
  destruct (atom w <=? 0) eqn:Le.
  - assert (Hpost : exists w2,
        snd (k_release sem 1 (logged (ev_semaphore_signal sem) w1)) = w2
        /\ atom w2 = atom w + 1 /\ cfg w2 = cfg w /\ ksched w2 = ksched w
        /\ match klookup sem w with
           | Some (p, o) => kobjs w2 = <[p := KObj (kcount o + 1) None]> (kobjs w)
                            /\ klookup sem w2 = Some (p, KObj (kcount o + 1) None)
           | None => kobjs w2 = kobjs w /\ klookup sem w2 = None
           end).
    { eexists. split; [reflexivity|]. rewrite k_release_one.
      change (klookup sem (logged (ev_semaphore_signal sem) w1))
        with (klookup sem w).
      destruct (klookup sem w) as [[p o]|] eqn:Hl.
      - destruct (Hk p o eq_refl) as (_ & Hmax). rewrite Hmax. simpl.
        repeat split. pose proof (klookup_live _ _ _ _ Hl) as ->.
        unfold klookup. simpl. rewrite lookup_insert_eq. reflexivity.
      - simpl. repeat split. exact Hl. }
    destruct Hpost as (w2 & -> & Ha2 & Hc2 & Hs2 & Hobj).
    cbn [fst snd]. rewrite mach_wait_world. cbv zeta. rewrite Ha2, Hc2, Hdown.
    destruct (atom w + 1 <? 0) eqn:Neg.
    + unfold k_acquire.
      change (klookup sem (logged _ (logged _ (set_atom (atom w) w2))))
        with (klookup sem w2).
      destruct (klookup sem w) as [[p o]|] eqn:Hl.
      * destruct Hobj as (Hk2 & Hl2). rewrite Hl2. cbn [kcount kmax].
        destruct (Hk p o eq_refl) as (Hc & Hmax).
        replace (0 <? kcount o + 1) with true by (symmetry; apply Z.ltb_lt; lia).
        simpl. repeat split; [exact Hs2|]. intros _.
        rewrite Hk2, insert_insert_eq.
        replace (kcount o + 1 - 1) with (kcount o) by lia.
        pose proof (klookup_live _ _ _ _ Hl) as ->.
        unfold klookup in Hl. destruct (kobjs w !! p) as [o'|] eqn:Hq; [|discriminate].
        injection Hl as ->. destruct o as [c m]. simpl in Hmax. subst m.
        apply insert_id. exact Hq.
      * destruct Hobj as (Hk2 & Hl2). rewrite Hl2. simpl.
        repeat split; [exact Hs2|]. intros _. exact Hk2.
    + simpl. repeat split; [exact Hs2|]. lia.
  - cbn [fst snd]. rewrite mach_wait_world. cbv zeta.
    change (atom w1) with (atom w + 1). change (cfg w1) with (cfg w).
    rewrite Hdown.
    replace (atom w + 1 <? 0) with false by (symmetry; apply Z.ltb_ge; lia).
    simpl. repeat split.
Qed.

Lemma mach_post_then_wait_witness :
  let w := set_atom (-3) (snd (Mach.semaphore 0 (boot lp64 8))) in
  fst ((Mach.post (Some 1%positive);; Mach.wait (Some 1%positive)) w) = Done tt
  /\ atom (snd ((Mach.post (Some 1%positive);; Mach.wait (Some 1%positive)) w)) = -3.
Proof.
  intros w.
  destruct (mach_post_then_wait (Some 1%positive) w) as (Hr & Ha & _).
  - vm_compute. split; [discriminate|reflexivity].
  - intros p o Hl. vm_compute in Hl. injection Hl as <- <-.
    split; [simpl; lia|reflexivity].
  - split; [exact Hr|exact Ha].
Defined.

(** X14: the Mach [try_wait] with a negative counter and no other thread
    touching it: it loads the counter, its first compare-exchange adds one
    and succeeds, and it returns false without any native call and without
    touching the kernel objects. *)
Theorem mach_try_wait_negative_uncontended (sem : HANDLE) (w : world) :
  atom w < 0 ->
  asched w = [] ->
  fst (Mach.try_wait sem w) = Done false
  /\ atom (snd (Mach.try_wait sem w)) = atom w + 1
  /\ since w (snd (Mach.try_wait sem w)) =
       [ev_load (atom w); ev_compare_exchange_weak (atom w) (atom w + 1) true]
  /\ kobjs (snd (Mach.try_wait sem w)) = kobjs w.
Proof.
  intros Hv Hs.
  unfold Mach.try_wait, atomic_load. unfold_calls. cbn [fst snd].
  change (asched (logged (ev_load (atom w)) w)) with (asched w).
  rewrite Hs. simpl.
  replace (atom w <? 0) with true by (symmetry; apply Z.ltb_lt; lia).
  unfold compare_exchange_weak, interfere. unfold_calls.
  change (asched (logged (ev_load (atom w)) w)) with (asched w).
  rewrite Hs. simpl. rewrite Z.eqb_refl. simpl.
  repeat split. apply since_app. simpl. rewrite <- app_assoc. reflexivity.
Qed.

Lemma mach_try_wait_negative_uncontended_witness :
  let w := set_atom (-2) (boot lp64 8) in
  fst (Mach.try_wait None w) = Done false
  /\ atom (snd (Mach.try_wait None w)) = -1.
Proof.
  intros w.
  destruct (mach_try_wait_negative_uncontended None w) as (Hr & Ha & _);
    [reflexivity|reflexivity|].
  split; [exact Hr|exact Ha].
Defined.

(** ** What no operation does to the kernel objects *)

Lemma steady_refl (w w' : world) : kobjs w' = kobjs w -> steady w w'.
Proof. intros H p. rewrite H. reflexivity. Qed.

Lemma steady_trans (w1 w2 w3 : world) : steady w1 w2 -> steady w2 w3 -> steady w1 w3.
Proof. intros H1 H2 p. rewrite H2. apply H1. Qed.

(** Replacing the count of a live object is steady. *)
Lemma steady_recount (w : world) (p : positive) (o : kobj) (c : Z) :
  kobjs w !! p = Some o ->
  steady w (set_kobjs (insert p (KObj c (kmax o))) w).
Proof.
  intros Hp q. simpl. destruct (decide (p = q)) as [<-|Hne].
  - rewrite lookup_insert_eq, Hp. reflexivity.
  - rewrite lookup_insert_ne by exact Hne. reflexivity.
Qed.

Lemma keeps_ret {A} (a : A) : keeps (mret a).
Proof. intros w. apply steady_refl. reflexivity. Qed.

Lemma keeps_throw {A} (e : errc) : keeps (@throw A e).
Proof. intros w. apply steady_refl. reflexivity. Qed.

Lemma keeps_out_of_fuel {A} : keeps (@out_of_fuel A).
Proof. intros w. apply steady_refl. reflexivity. Qed.

Lemma keeps_bind {A B} (m : M A) (k : A -> M B) :
  keeps m -> (forall a, keeps (k a)) -> keeps (m ≫= k).
Proof.
  intros Hm Hk w. unfold_calls. specialize (Hm w).
  destruct (m w) as [[a|e| |] w']; simpl in *; try exact Hm.
  eapply steady_trans; [exact Hm|apply Hk].
Qed.

Lemma keeps_fueled {A} (bound : world -> nat) (body : nat -> M A) :
  (forall n, keeps (body n)) -> keeps (fueled bound body).
Proof. intros H w. apply H. Qed.

Lemma keeps_emit (e : event) : keeps (emit e).
Proof. intros w. apply steady_refl. reflexivity. Qed.

Lemma keeps_get_errno : keeps get_errno.
Proof. intros w. apply steady_refl. reflexivity. Qed.

Lemma keeps_put_errno (v : Z) : keeps (put_errno v).
Proof. intros w. apply steady_refl. reflexivity. Qed.

Lemma keeps_k_live (h : HANDLE) : keeps (k_live h).
Proof. intros w. apply steady_refl. reflexivity. Qed.

Lemma klookup_inv (h : HANDLE) (w : world) (p : positive) (o : kobj) :
  klookup h w = Some (p, o) -> kobjs w !! p = Some o.
Proof.
  unfold klookup. destruct h as [q|]; [|discriminate].
  destruct (kobjs w !! q) eqn:E; [|discriminate]. intros [= <- <-]. exact E.
Qed.

Lemma keeps_k_release (h : HANDLE) (n : Z) : keeps (k_release h n).
Proof.
  intros w. unfold k_release.
  destruct (klookup h w) as [[p o]|] eqn:Hl; [|apply steady_refl; reflexivity].
  destruct (0 <? n) eqn:Hn; simpl; [|apply steady_refl; reflexivity].
  destruct (within (kcount o + n) (kmax o)) eqn:Hw; simpl;
    [|apply steady_refl; reflexivity].
  apply steady_recount. exact (klookup_inv _ _ _ _ Hl).
Qed.

Lemma keeps_k_acquire (h : HANDLE) (blocking interruptible : bool) :
  keeps (k_acquire h blocking interruptible).
Proof.
  intros w. unfold k_acquire.
  destruct (klookup h w) as [[p o]|] eqn:Hl; [|apply steady_refl; reflexivity].
  destruct (0 <? kcount o) eqn:Hc; simpl.
  - apply steady_recount. exact (klookup_inv _ _ _ _ Hl).
  - destruct blocking; [|apply steady_refl; reflexivity].
    destruct (await interruptible (ksched w)) as [[a|] rest];
      apply steady_refl; reflexivity.
Qed.

Lemma keeps_atomic (m : M Z) :
  (forall w, kobjs (snd (m w)) = kobjs w) -> keeps m.
Proof. intros H w. apply steady_refl. apply H. Qed.

Lemma keeps_compare_exchange_weak (expected desired : Z) :
  keeps (compare_exchange_weak expected desired).
Proof.
  intros w. apply steady_refl. unfold compare_exchange_weak, interfere.
  destruct (asched w) as [|[v|] rest]; simpl;
    try destruct (_ =? expected); reflexivity.
Qed.

Ltac keeps_step :=
  first
    [ apply keeps_bind; [|intros ?]
    | apply keeps_ret | apply keeps_throw | apply keeps_out_of_fuel
    | apply keeps_emit | apply keeps_get_errno | apply keeps_put_errno
    | apply keeps_k_live | apply keeps_k_release | apply keeps_k_acquire
    | apply keeps_compare_exchange_weak
    | apply keeps_atomic; intros ?; reflexivity
    | match goal with
      | |- keeps (if ?c then _ else _) => destruct c
      | |- keeps (match ?x with _ => _ end) => destruct x
      end ].

Ltac keeps_all := repeat keeps_step.

Lemma keeps_mach_try_wait_loop (fuel : nat) (sem : HANDLE) (orig : Z) :
  keeps (Mach.try_wait_loop fuel sem orig).
Proof.
  revert orig. induction fuel as [|fuel IH]; intros orig; simpl.
  - destruct (orig <? 0); [apply keeps_out_of_fuel|].
    unfold semaphore_wait. keeps_all.
  - destruct (orig <? 0).
    + apply keeps_bind; [apply keeps_compare_exchange_weak|].
      intros [ok v]. simpl. destruct ok; [apply keeps_ret|apply IH].
    + unfold semaphore_wait. keeps_all.
Qed.

Lemma keeps_posix_wait_loop (fuel : nat) (mSem : HANDLE) :
  keeps (Posix.wait_loop fuel mSem).
Proof.
  induction fuel as [|fuel IH]; simpl; [apply keeps_out_of_fuel|].
  unfold sem_wait.
  apply keeps_bind; [keeps_all|]. intros r.
  apply keeps_bind; [keeps_all|]. intros e.
  destruct (_ && _); [apply IH|apply keeps_ret].
Qed.

Lemma keeps_run (b : backend) (op : operation) (mSem : HANDLE) :
  keeps (run b op mSem).
Proof.
  destruct b, op; simpl.
  - unfold Win32.post, ReleaseSemaphore. keeps_all.
  - unfold Win32.wait, WaitForSingleObject. keeps_all.
  - unfold Win32.try_wait, WaitForSingleObject. keeps_all.
  - unfold Dispatch.post, dispatch_semaphore_signal. keeps_all.
  - unfold Dispatch.wait, dispatch_semaphore_wait. keeps_all.
  - unfold Dispatch.try_wait, dispatch_semaphore_wait. keeps_all.
  - unfold Mach.post, fetch_add, semaphore_signal. keeps_all.
  - unfold Mach.wait, fetch_sub, semaphore_wait. keeps_all.
  - unfold Mach.try_wait, atomic_load.
    apply keeps_bind; [|intros ?; apply keeps_ret].
    apply keeps_bind; [keeps_all|]. intros orig.
    apply keeps_fueled. intros n. apply keeps_mach_try_wait_loop.
  - unfold Posix.post, sem_post. keeps_all.
  - unfold Posix.wait. apply keeps_fueled. intros n. apply keeps_posix_wait_loop.
  - unfold Posix.try_wait, sem_trywait. keeps_all.
Qed.

(** X15: on every variant, [post], [wait] and [try_wait] neither create nor
    free a kernel object, whatever their outcome: the live handles after
    the call are the live handles before it, and every object keeps its
    maximum. *)
Theorem operations_keep_kernel_objects
    (b : backend) (op : operation) (mSem : HANDLE) (w : world) :
  dom (kobjs (snd (run b op mSem w))) = dom (kobjs w)
  /\ (forall p o, kobjs w !! p = Some o ->
        exists o', kobjs (snd (run b op mSem w)) !! p = Some o'
                   /\ kmax o' = kmax o).
Proof.
  pose proof (keeps_run b op mSem w) as Hmax. split.
  - apply set_eq. intros p. rewrite !elem_of_dom.
    specialize (Hmax p).
    destruct (kobjs (snd (run b op mSem w)) !! p), (kobjs w !! p);
      simpl in Hmax; try discriminate; split; intros [? ?]; eauto;
      discriminate.
  - intros p o Hp. specialize (Hmax p). rewrite Hp in Hmax.
    destruct (kobjs (snd (run b op mSem w)) !! p) as [o'|];
      simpl in Hmax; [|discriminate].
    exists o'. split; [reflexivity|congruence].
Qed.

Lemma operations_keep_kernel_objects_witness :
  dom (kobjs (snd (run MachBackend op_post (Some 1%positive)
                     (snd (construct MachBackend 0 (boot lp64 8)))))) =
    dom (kobjs (snd (construct MachBackend 0 (boot lp64 8)))).
Proof.
  apply (operations_keep_kernel_objects MachBackend op_post (Some 1%positive)).
Defined.

(** ** What [post], [wait] and [try_wait] never do *)

(** X18: on every variant [post] never parks the thread and never waits:
    it consumes nothing of the schedule, makes at most one native call,
    and that call is not a wait without time limit. *)
Theorem post_is_bounded (b : backend) (mSem : HANDLE) (w : world) :
  fst (post b mSem w) <> Suspended
  /\ fst (post b mSem w) <> OutOfFuel
  /\ ksched (snd (post b mSem w)) = ksched w
  /\ (length (List.filter is_native (since w (snd (post b mSem w)))) <= 1)%nat
  /\ List.filter is_unbounded_wait (since w (snd (post b mSem w))) = [].
Proof.
  destruct b; simpl.
  - unfold Win32.post, ReleaseSemaphore. unfold_calls. cbn [fst snd].
    rewrite k_release_one, klookup_logged.
    destruct (klookup mSem w) as [[p o]|]; [destruct (within _ _)|]; simpl;
      (split; [discriminate|]); (split; [discriminate|]); (split; [reflexivity|]);
      erewrite since_app by reflexivity; simpl; auto.
  - unfold Dispatch.post, dispatch_semaphore_signal. unfold_calls. cbn [fst snd].
    rewrite k_release_one, klookup_logged.
    destruct (klookup mSem w) as [[p o]|]; [destruct (within _ _)|]; simpl;
      (split; [discriminate|]); (split; [discriminate|]); (split; [reflexivity|]);
      erewrite since_app by reflexivity; simpl; auto.
  - rewrite mach_post_world. cbv zeta.
    destruct (atom w <=? 0); cbn [fst snd].
    + rewrite k_release_one, klookup_logged.
      destruct (klookup mSem _) as [[p o]|]; [destruct (within _ _)|]; simpl;
        (split; [discriminate|]); (split; [discriminate|]); (split; [reflexivity|]);
        erewrite since_app by (simpl; rewrite <- ?app_assoc; reflexivity); simpl; auto.
    + simpl. (split; [discriminate|]); (split; [discriminate|]);
        (split; [reflexivity|]).
      erewrite since_app by reflexivity. simpl. auto.
  - unfold Posix.post, sem_post, k_live. unfold_calls. cbn [fst snd].
    rewrite klookup_logged.
    destruct (klookup mSem w) as [[p o]|] eqn:Hl; simpl.
    + rewrite k_release_one, klookup_logged, Hl.
      destruct (within _ _); simpl;
        (split; [discriminate|]); (split; [discriminate|]); (split; [reflexivity|]);
        erewrite since_app by reflexivity; simpl; auto.
    + (split; [discriminate|]); (split; [discriminate|]); (split; [reflexivity|]).
      erewrite since_app by reflexivity. simpl. auto.
Qed.

Lemma try_wait_loop_never_throws (fuel : nat) (sem : HANDLE) :
  forall (orig : Z) (w : world) (e : errc),
    fst (Mach.try_wait_loop fuel sem orig w) <> Raise e.
Proof.
  induction fuel as [|fuel IH]; intros orig w e; simpl.
  - destruct (orig <? 0); [discriminate|].
    unfold semaphore_wait. unfold_calls. cbn [fst snd].
    destruct (k_acquire_total sem true true (logged (ev_semaphore_wait sem) w))
      as [(a & w' & ->)|(w' & ->)]; discriminate.
  - destruct (orig <? 0).
    + destruct (cas_run orig (orig + 1) w) as (ok & w' & Hc & _).
      unfold_calls. rewrite Hc. destruct ok; simpl; [discriminate|apply IH].
    + unfold semaphore_wait. unfold_calls. cbn [fst snd].
      destruct (k_acquire_total sem true true (logged (ev_semaphore_wait sem) w))
        as [(a & w' & ->)|(w' & ->)]; discriminate.
Qed.

(** X19: [wait] and [try_wait] honour their [noexcept] on every variant and
    their loops end: under every finite schedule of signals, posts and
    interference on the atomic counter, each call either returns or leaves
    the thread parked in a native wait; it never throws and never runs out
    of rounds. *)
Theorem wait_and_try_wait_end_without_throwing
    (b : backend) (mSem : HANDLE) (w : world) :
  (forall e, fst (wait b mSem w) <> Raise e)
  /\ fst (wait b mSem w) <> OutOfFuel
  /\ (forall e, fst (try_wait b mSem w) <> Raise e)
  /\ fst (try_wait b mSem w) <> OutOfFuel.
Proof.
  destruct (wait_never_throws b mSem w) as (Hw1 & Hw2).
  split; [exact Hw1|]. split; [exact Hw2|].
  destruct b; simpl.
  - unfold Win32.try_wait, WaitForSingleObject. unfold_calls. cbn [fst snd].
    destruct (k_acquire_total mSem (0 =? INFINITE) false
                (logged (ev_WaitForSingleObject mSem 0) w))
      as [(a & w' & ->)|(w' & ->)]; split; intros; discriminate.
  - unfold Dispatch.try_wait, dispatch_semaphore_wait. unfold_calls. cbn [fst snd].
    destruct (k_acquire_total mSem (DISPATCH_TIME_NOW =? DISPATCH_TIME_FOREVER) false
                (logged (ev_dispatch_semaphore_wait mSem DISPATCH_TIME_NOW) w))
      as [(a & w' & ->)|(w' & ->)]; split; intros; discriminate.
  - unfold Mach.try_wait, atomic_load, fueled. unfold_calls. cbn [fst snd].
    split.
    + intros e. apply try_wait_loop_never_throws.
    + apply try_wait_loop_fuel; [reflexivity|simpl; lia].
  - unfold Posix.try_wait, sem_trywait. unfold_calls. cbn [fst snd].
    destruct (k_acquire_total mSem false true (logged (ev_sem_trywait mSem) w))
      as [(a & w' & ->)|(w' & ->)]; [destruct a|]; split; intros; discriminate.
Qed.
